(** * The dictionary module of BottyMcBotFace

    A shallow embedding of the [Dict] class (the sorted, JSON-backed
    dictionary behind the /dict, /define and /index commands) and the
    properties its specification states about it.

    - JavaScript strings are [string]s whose characters are read as
      code units in the Latin-1 range.
    - Numbers that index the array are [Z]; every value the search
      computes is an integer far below 2^53, where the engine's doubles
      are exact, so [Math.floor((start + end) / 2)] is [Z.div].
    - The module-level array [dictData] and everything a handler sends
      out (replies, log lines, the file write) live in a [World] that
      the handlers thread through a small state monad. *)

From Stdlib Require Import ZArith List String Ascii Bool Lia Sorted Permutation.
From Stdlib Require Import DecimalString.
Import ListNotations.

Local Open Scope string_scope.
Local Open Scope Z_scope.

(* ===================================================================== *)
(** * Strings of the platform *)
(* ===================================================================== *)

Module Js.

(** The code unit of a character. *)
Definition code (c : ascii) : N := N_of_ascii c.

(** [WhiteSpace] and [LineTerminator] of ECMAScript, as far as they
    fall in the Latin-1 range: TAB, LF, VT, FF, CR, SP and NBSP. *)
Definition isWhiteSpace (c : ascii) : bool :=
  let n := code c in
  ((9 <=? n) && (n <=? 13) || (n =? 32) || (n =? 160))%N.

(** [String.prototype.trimStart]. *)
Fixpoint trimStart (s : string) : string :=
  match s with
  | EmptyString => EmptyString
  | String c s' => if isWhiteSpace c then trimStart s' else s
  end.

(** [String.prototype.trimEnd]. *)
Fixpoint trimEnd (s : string) : string :=
  match s with
  | EmptyString => EmptyString
  | String c s' =>
      match trimEnd s' with
      | EmptyString => if isWhiteSpace c then EmptyString else String c EmptyString
      | t => String c t
      end
  end.

(** [String.prototype.trim]. *)
Definition trim (s : string) : string := trimEnd (trimStart s).

(** Lower-case mapping of one code unit: A-Z, and the capital letters
    of Latin-1 (U+00C0-U+00DE without the multiplication sign). *)
Definition lowerCode (n : N) : N :=
  (if (65 <=? n) && (n <=? 90) then n + 32
   else if (192 <=? n) && (n <=? 222) && negb (n =? 215) then n + 32
   else n)%N.

Definition lowerChar (c : ascii) : ascii := ascii_of_N (lowerCode (code c)).

(** [String.prototype.toLowerCase]. *)
Fixpoint toLowerCase (s : string) : string :=
  match s with
  | EmptyString => EmptyString
  | String c s' => String (lowerChar c) (toLowerCase s')
  end.

(** [haystack.includes(needle)]: [needle] occurs in [haystack] as a
    contiguous run of code units. *)
Fixpoint includes (haystack needle : string) : bool :=
  prefix needle haystack
  || match haystack with
     | EmptyString => false
     | String _ rest => includes rest needle
     end.

(** A number inside a template literal. *)
Definition showNat (n : nat) : string := NilEmpty.string_of_uint (Nat.to_uint n).

(** Values a property read can give. *)
Inductive value : Type :=
| undefined : value
| str : string -> value.

(** A value inside a template literal ([ToString]). *)
Definition show (v : value) : string :=
  match v with
  | undefined => "undefined"
  | str s => s
  end.

End Js.

(* ===================================================================== *)
(** * Binary search: [Dict.getIndexOf] *)
(* ===================================================================== *)

(** The variables of the loop. *)
Record LoopState : Type := mkLoop { start : Z; end_ : Z }.

(** What one pass through [while (start <= end) { ... }] does. *)
Inductive Step : Type :=
| Exit : Step                       (* the loop condition is false *)
| Return : Z -> Step                (* [return middle] *)
| Continue : LoopState -> Step      (* next iteration *)
| Throw : Step.                     (* [array[middle]] is not an element *)

(** How the [try] block of [getIndexOf] ends. *)
Inductive Outcome : Type :=
| Found : Z -> Outcome              (* returned from inside the loop *)
| NotFound : Outcome                (* the loop ran out *)
| Caught : Outcome                  (* an exception reached the [catch] block *)
| Diverged : Outcome.               (* the iteration budget ran out *)

Section BinarySearch.

Variables A T : Type.

(** [compareFunc(array[middle], target)]: negative, zero or positive. *)
Variable compareFunc : A -> T -> Z.


(** [array[i]] for a number [i]: an element when [i] is an index of
    the array, [undefined] otherwise. *)
Definition at_index (array : list A) (i : Z) : option A :=
  if (0 <=? i) && (i <? Z.of_nat (List.length array)) then nth_error array (Z.to_nat i)
  else None.

(** Lines 94-107.  The only way the body can fail is by handing
    [undefined] to the comparison function, which reads a property of
    it; that is the [Throw] outcome. *)
Definition loop_body (array : list A) (target : T) (s : LoopState) : Step :=
  if start s <=? end_ s then
    let middle := (start s + end_ s) / 2 in
    match at_index array middle with
    | None => Throw
    | Some x =>
        let result := compareFunc x target in
        if result =? 0 then Return middle
        else if result <? 0 then Continue (mkLoop (middle + 1) (end_ s))
        else Continue (mkLoop (start s) (middle - 1))
    end
  else Exit.


(** The loop, iterated at most [fuel] times. *)
Fixpoint loop (fuel : nat) (array : list A) (target : T) (s : LoopState) : Outcome :=
  match fuel with
  | O => Diverged
  | S fuel' =>
      match loop_body array target s with
      | Exit => NotFound
      | Return i => Found i
      | Continue s' => loop fuel' array target s'
      | Throw => Caught
      end
  end.

(** Lines 90-91. *)
Definition initial (array : list A) : LoopState :=
  mkLoop 0 (Z.of_nat (List.length array) - 1).

(** The body of the [try] block.  One pass per element and a last one
    that sees [start > end] is all the loop can make. *)
Definition search (array : list A) (target : T) : Outcome :=
  loop (S (List.length array)) array target (initial array).

(** The number [getIndexOf] returns. *)
Definition index_of (o : Outcome) : Z :=
  match o with
  | Found i => i
  | NotFound | Caught | Diverged => -1
  end.

(** What is left of the range: the quantity that bounds the loop. *)
Definition remaining (s : LoopState) : nat := Z.to_nat (end_ s - start s + 1).

(** The invariant of the loop for an array of [n] elements. *)
Definition in_range (n : nat) (s : LoopState) : Prop :=
  0 <= start s /\ end_ s <= Z.of_nat n - 1.

(** The states the loop of a call goes through. *)
Inductive reachable (array : list A) (target : T) : LoopState -> Prop :=
| reach_initial : reachable array target (initial array)
| reach_step : forall s s',
    reachable array target s ->
    loop_body array target s = Continue s' ->
    reachable array target s'.

(** The algorithm in the words of the specification, as a relation
    between a range [start..end] and the result. *)
Inductive spec_search (array : list A) (target : T) : Z -> Z -> Z -> Prop :=
| spec_exhausted : forall st en,
    en < st -> spec_search array target st en (-1)
| spec_equal : forall st en x,
    st <= en ->
    at_index array ((st + en) / 2) = Some x ->
    compareFunc x target = 0 ->
    spec_search array target st en ((st + en) / 2)
| spec_before : forall st en x r,
    st <= en ->
    at_index array ((st + en) / 2) = Some x ->
    compareFunc x target < 0 ->
    spec_search array target ((st + en) / 2 + 1) en r ->
    spec_search array target st en r
| spec_after : forall st en x r,
    st <= en ->
    at_index array ((st + en) / 2) = Some x ->
    0 < compareFunc x target ->
    spec_search array target st ((st + en) / 2 - 1) r ->
    spec_search array target st en r.

(** Every element equal to the target lies in the range: what the
    loop keeps true on a sorted array. *)
Definition covers (array : list A) (target : T) (s : LoopState) : Prop :=
  forall i x, at_index array i = Some x -> compareFunc x target = 0 ->
              start s <= i <= end_ s.

End BinarySearch.

Arguments at_index {A} array i.
Arguments loop_body {A T} compareFunc array target s.
Arguments loop {A T} compareFunc fuel array target s.
Arguments initial {A} array.
Arguments search {A T} compareFunc array target.
Arguments reachable {A T} compareFunc array target s.
Arguments spec_search {A T} compareFunc array target _ _ _.
Arguments covers {A T} compareFunc array target s.

(* ===================================================================== *)
(** * [Array.prototype.sort] *)
(* ===================================================================== *)

(** The sort of the platform is stable, and with a consistent comparison
    function its result is the one sorted arrangement that keeps equal
    elements in their order of arrival.  Insertion from the right end,
    each element going in front of the first one it does not follow,
    computes that arrangement. *)
Section ArraySort.

Variable A : Type.
Variable comparefn : A -> A -> Z.

Fixpoint insert (x : A) (l : list A) : list A :=
  match l with
  | [] => [x]
  | y :: l' => if comparefn x y <=? 0 then x :: l else y :: insert x l'
  end.

Fixpoint sort (l : list A) : list A :=
  match l with
  | [] => []
  | x :: l' => insert x (sort l')
  end.

End ArraySort.

Arguments insert {A} comparefn x l.
Arguments sort {A} comparefn l.

(* ===================================================================== *)
(** * [String.prototype.localeCompare] at sensitivity 'accent' *)
(* ===================================================================== *)

(** The comparison the dictionary uses everywhere is
    [a.localeCompare(b, undefined, { sensitivity: 'accent' })].  The
    collator is the platform's, and the properties of the dictionary
    are stated for any comparison function ([consistent] below).  At
    this sensitivity the platform has strings that differ in base
    letters or in accents compare unequal and strings that differ only
    in case compare equal (a <> b, a <> á, a = A).

    [Collation.localeCompare] is one comparison of that kind over
    Latin-1, on which the scenarios are run; it is not the platform's
    table.  Every code unit that is not ignored has a primary weight
    (its base letter, case folded) and a secondary weight (its
    diacritic); the primary weights of the two strings are compared
    first, the secondary weights break ties.  It follows the platform
    in this: case is folded; a diacritic makes a difference, acute
    before grave before circumflex, ring, diaeresis, tilde and cedilla;
    the ordinal indicators count as a and o; control characters and the
    soft hyphen are ignored; white space, punctuation and symbols come
    before digits, digits before letters.  Among white space,
    punctuation and symbols, and among the letters of Latin-1 that are
    no accented form of an ASCII letter, the order of the codes stands
    in for the platform's. *)
Module Collation.

(** Lower-case Latin-1 letters with a diacritic, and the two ordinal
    indicators: code, base letter, diacritic (0 none, 1 acute, 2 grave,
    3 circumflex, 4 ring, 5 diaeresis, 6 tilde, 7 cedilla). *)
Definition diacritics : list (N * (N * N)) :=
  [ (170, (97, 0)); (186, (111, 0));
    (224, (97, 2)); (225, (97, 1)); (226, (97, 3)); (227, (97, 6));
    (228, (97, 5)); (229, (97, 4)); (231, (99, 7));
    (232, (101, 2)); (233, (101, 1)); (234, (101, 3)); (235, (101, 5));
    (236, (105, 2)); (237, (105, 1)); (238, (105, 3)); (239, (105, 5));
    (241, (110, 6));
    (242, (111, 2)); (243, (111, 1)); (244, (111, 3)); (245, (111, 6));
    (246, (111, 5));
    (249, (117, 2)); (250, (117, 1)); (251, (117, 3)); (252, (117, 5));
    (253, (121, 1)); (255, (121, 5)) ]%N.

Fixpoint assoc (n : N) (t : list (N * (N * N))) : option (N * N) :=
  match t with
  | [] => None
  | (k, v) :: t' => if (k =? n)%N then Some v else assoc n t'
  end.

(** Code units without any weight: the control characters that are no
    white space, and the soft hyphen. *)
Definition ignorable (n : N) : bool :=
  ((n <=? 8) || (14 <=? n) && (n <=? 31) || (127 <=? n) && (n <=? 159)
   || (n =? 173))%N.

(** The rank of a lower-case code unit: letters after digits after
    everything else. *)
Definition rank (n : N) : N :=
  (if (97 <=? n) && (n <=? 122) || (223 <=? n) && negb (n =? 247) then 512 + n
   else if (48 <=? n) && (n <=? 57) then 256 + n
   else n)%N.

(** Primary and secondary weight of a code unit, if it has any. *)
Definition weights (c : ascii) : option (N * N) :=
  let n := Js.lowerCode (Js.code c) in
  if ignorable n then None
  else match assoc n diacritics with
       | Some (base, diacritic) => Some (rank base, diacritic)
       | None => Some (rank n, 0%N)
       end.

Fixpoint primary (s : string) : list N :=
  match s with
  | EmptyString => []
  | String c s' =>
      match weights c with
      | Some w => fst w :: primary s'
      | None => primary s'
      end
  end.

Fixpoint secondary (s : string) : list N :=
  match s with
  | EmptyString => []
  | String c s' =>
      match weights c with
      | Some w => snd w :: secondary s'
      | None => secondary s'
      end
  end.

(** Lexicographic comparison of weight sequences. *)
Fixpoint lex (a b : list N) : comparison :=
  match a, b with
  | [], [] => Eq
  | [], _ :: _ => Lt
  | _ :: _, [] => Gt
  | x :: a', y :: b' =>
      match (x ?= y)%N with
      | Eq => lex a' b'
      | c => c
      end
  end.

Definition collate (a b : string) : comparison :=
  match lex (primary a) (primary b) with
  | Eq => lex (secondary a) (secondary b)
  | c => c
  end.

Definition localeCompare (a b : string) : Z :=
  match collate a b with
  | Lt => -1
  | Eq => 0
  | Gt => 1
  end.

End Collation.

(** What the platform promises of a comparison function, and what the
    sort and the search need of it: swapping the arguments flips the
    sign, and "not after" is transitive. *)
Definition consistent (compare : string -> string -> Z) : Prop :=
  (forall a b, Z.sgn (compare b a) = - Z.sgn (compare a b)) /\
  (forall a b c, compare a b <= 0 -> compare b c <= 0 -> compare a c <= 0).

(* ===================================================================== *)
(** * The data of the module and its surroundings *)
(* ===================================================================== *)

(** One element of [dictData]; the keys are those of the JSON file. *)
Record Entry : Type := mkEntry {
  author : string;
  entry : string;
  definition : string
}.

(** What [findDictionaryEntry] hands back: an object literal, a list of
    keys and values. *)
Definition object : Type := list (string * string).

(** A property read [o[key]] (or [o.key]). *)
Fixpoint prop (o : object) (key : string) : Js.value :=
  match o with
  | [] => Js.undefined
  | (k, v) :: o' => if String.eqb k key then Js.str v else prop o' key
  end.

(** A slash-command interaction, as far as the handlers read it:
    [interaction.options.data[i].value] and [interaction.user.username]. *)
Record Interaction : Type := mkInteraction {
  options_data : list string;
  username : string
}.

(** What the module sends out.  An error can go to the logger together
    with the interaction; what the logger, which is not among these
    files, then does with the interaction is not part of the event. *)
Inductive Event : Type :=
| DeferReply : Event                      (* [interaction.deferReply()] *)
| EditReply : string -> Event             (* [interaction.editReply(s)] *)
| Reply : string -> Event                 (* [interaction.reply(s)] *)
| LogInfo : string -> Event
| LogWarning : string -> Event
| LogError : string -> Event
| LogErrorTo : string -> bool -> Event    (* [logError(s, interaction)]; [true]: [logError(s, interaction, true)] *)
| WriteFile : list Entry -> Event.        (* [fs.writeFile(dictDataPath, JSON of the array)] *)

(** The module-level array and the events so far, oldest first. *)
Record World : Type := mkWorld {
  dictData : list Entry;
  trace : list Event
}.

(** Computations over the world. *)
Definition M (X : Type) : Type := World -> X * World.

Definition ret {X} (x : X) : M X := fun w => (x, w).

Definition bind {X Y} (c : M X) (k : X -> M Y) : M Y :=
  fun w => let (x, w') := c w in k x w'.

Definition emit (e : Event) : M unit :=
  fun w => (tt, mkWorld (dictData w) (trace w ++ [e])).

Definition getData : M (list Entry) := fun w => (dictData w, w).

Definition setData (d : list Entry) : M unit :=
  fun w => (tt, mkWorld d (trace w)).

Declare Scope dict_scope.
Delimit Scope dict_scope with dict.
Notation "x <- c ;; k" := (bind c (fun x => k))
  (at level 61, c at next level, right associativity) : dict_scope.
Notation "c ;; k" := (bind c (fun _ => k))
  (at level 61, right associativity) : dict_scope.
Local Open Scope dict_scope.

(** The double quote as a string. *)
Definition dquote : string := String "034"%char EmptyString.

(** The text of a caught exception inside a log line; what the engine
    writes after the name of the error is left out. *)
Definition TypeError : string := "TypeError".

(** [interaction.options.data] inside a template literal: the array is
    joined with commas, and each option, an object, reads
    "[object Object]". *)
Definition showOptions (options : list string) : string :=
  String.concat "," (map (fun _ => "[object Object]") options).

(* ===================================================================== *)
(** * The class [Dict] *)
(* ===================================================================== *)

(** The performance counters the methods open ([using perfCounter]) time
    the calls and are left out. *)

Module Dict.
Section WithCollator.

(** [localeCompare(_, undefined, { sensitivity: 'accent' })]. *)
Variable localeCompare : string -> string -> Z.

(** The comparison function of [sortDictData] (lines 37-40). *)
Definition compareEntries (a b : Entry) : Z :=
  localeCompare (entry a) (entry b).

(** The comparison function of [findDictionaryEntry] (lines 124-131). *)
Definition compareToName (x : Entry) (y : string) : Z :=
  let left := entry x in
  let right := y in
  localeCompare left right.

(** Lines 48-55.  The array is always defined here, so the [catch]
    branch that returns 0 has no counterpart. *)
Definition getDictDataEntryCount : M nat :=
  data <- getData ;;
  ret (List.length data).

(** Lines 34-46. *)
Definition sortDictData : M unit :=
  data <- getData ;;
  setData (sort compareEntries data) ;;
  n <- getDictDataEntryCount ;;
  emit (LogInfo ("Sorted " ++ Js.showNat n ++ " dictionary items.")).

(** Lines 26-28. *)
Definition init : M unit := sortDictData.

(** Lines 62-79.  The text is built and the write is requested before
    the function returns; the callback of the write runs later and is
    not part of the call. *)
Definition flushDictData : M unit :=
  data <- getData ;;
  emit (WriteFile data).

(** Lines 88-114.  The log line of the [catch] block quotes the array,
    the target and the comparison function; that part of its text is
    left out. *)
Definition getIndexOf {A T : Type} (array : list A) (target : T)
    (compareFunc : A -> T -> Z) : M Z :=
  match search compareFunc array target with
  | Caught =>
      emit (LogError ("Failed to getIndexOf, got " ++ TypeError)) ;;
      ret (-1)
  | o => ret (index_of o)
  end.

(** Lines 121-141. *)
Definition findDictionaryEntry (entryName : string) : M (option object) :=
  data <- getData ;;
  result <- getIndexOf data entryName compareToName ;;
  if negb (result =? -1) then
    match at_index data result with
    | Some e => ret (Some [("author", author e); ("definition", definition e)])
    | None =>
        emit (LogError ("Failed to find dictionary entry " ++ entryName
                        ++ ", got " ++ TypeError)) ;;
        ret None
    end
  else ret None.

(** Lines 147-176. *)
Definition handleDictCommand (interaction : Interaction) : M unit :=
  emit DeferReply ;;
  if (List.length (options_data interaction) <? 1)%nat then
    emit (LogErrorTo "Invalid interaction object sent to dict, data length 0!" true)
  else
    match nth_error (options_data interaction) 0 with
    | None =>
        emit (LogErrorTo ("Failed to handle DICT command, got error: " ++ TypeError) true)
    | Some value =>
        let dictRequested := Js.trim value in
        if String.eqb dictRequested "" then
          emit (EditReply "DICT entry for what, /dict WHAT")
        else
          result <- findDictionaryEntry dictRequested ;;
          match result with
          | Some r =>
              emit (EditReply ("**DICT:** **" ++ dictRequested ++ "** = "
                               ++ Js.show (prop r "definition")
                               ++ " [added by: " ++ Js.show (prop r "author") ++ "]"))
          | None =>
              emit (EditReply ("**DICT:** No definition for " ++ dictRequested))
          end
    end.

(** Lines 182-222. *)
Definition handleDefineCommand (interaction : Interaction) : M unit :=
  if (List.length (options_data interaction) <? 1)%nat then
    emit (LogErrorTo "Invalid interaction object sent to dict, data length 0!" false)
  else if (List.length (options_data interaction) <? 2)%nat then
    emit (Reply "Missing entries for define command, need phrase and definiton plzsir") ;;
    emit (LogWarning ("Failed to get data for define command, got "
                      ++ showOptions (options_data interaction)))
  else
    match nth_error (options_data interaction) 0,
          nth_error (options_data interaction) 1 with
    | Some value0, Some value1 =>
        let entryName := Js.trim value0 in
        let definition := Js.trim value1 in
        existingEntry <- findDictionaryEntry entryName ;;
        match existingEntry with
        | None =>
            let newEntry := mkEntry (username interaction) entryName definition in
            data <- getData ;;
            setData (data ++ [newEntry]) ;;
            sortDictData ;;
            flushDictData ;;
            emit (Reply ("**DICT:** Definition for " ++ entryName
                         ++ " added successfully."))
        | Some existing =>
            emit (Reply ("**DICT:** Definition for " ++ entryName
                         ++ " already exists as: " ++ Js.show (prop existing "1")
                         ++ " by " ++ Js.show (prop existing "0")))
        end
    | _, _ => emit (LogErrorTo ("Failed to set definition, got error " ++ TypeError) false)
    end.

(** The entries [handleIndexCommand] selects (line 236). *)
Definition matching (search_string : string) (data : list Entry) : list Entry :=
  filter (fun entry => Js.includes (Js.toLowerCase (definition entry)) search_string) data.

(** The loop of lines 242-247, from index [i] on. *)
Fixpoint listNames (i : nat) (matches : list Entry) (outputString : string) : string :=
  match matches with
  | [] => outputString
  | m :: rest =>
      let sep := if (0 <? i)%nat then outputString ++ ", " else outputString in
      listNames (S i) rest (sep ++ dquote ++ entry m ++ dquote)
  end.

(** Lines 228-259. *)
Definition handleIndexCommand (interaction : Interaction) : M unit :=
  emit DeferReply ;;
  match nth_error (options_data interaction) 0 with
  | None => emit (LogError ("Failed to handle index command, got error " ++ TypeError))
  | Some value =>
      let search_string := Js.toLowerCase (Js.trim value) in
      data <- getData ;;
      let matches := matching search_string data in
      let outputString :=
        if (0 <? List.length matches)%nat then
          listNames 0 matches ("Search string " ++ search_string ++ " found in entries: ")
        else
          "Search string " ++ search_string ++ " not found in entries." in
      emit (EditReply outputString)
  end.

End WithCollator.
End Dict.

(** What can be asked of the module: [Dict.init()] and the three
    commands it registers. *)
Inductive Operation : Type :=
| Init : Operation
| DictCmd : Interaction -> Operation
| DefineCmd : Interaction -> Operation
| IndexCmd : Interaction -> Operation.

Definition perform (localeCompare : string -> string -> Z) (o : Operation) : M unit :=
  match o with
  | Init => Dict.init localeCompare
  | DictCmd i => Dict.handleDictCommand localeCompare i
  | DefineCmd i => Dict.handleDefineCommand localeCompare i
  | IndexCmd i => Dict.handleIndexCommand i
  end.

Fixpoint performAll (localeCompare : string -> string -> Z) (os : list Operation) : M unit :=
  match os with
  | [] => ret tt
  | o :: os' => perform localeCompare o ;; performAll localeCompare os'
  end.

(** Loading the module: the file's content becomes [dictData] and line
    364 calls [Dict.init()]. *)
Definition load (localeCompare : string -> string -> Z) (file : list Entry) : World :=
  snd (Dict.init localeCompare (mkWorld file [])).

(** The array is sorted ascending by the comparison of entry names. *)
Definition sorted (localeCompare : string -> string -> Z) (data : list Entry) : Prop :=
  StronglySorted (fun a b => Dict.compareEntries localeCompare a b <= 0) data.

(** [name] is equivalent to the name of [e] under the comparison. *)
Definition same_name (localeCompare : string -> string -> Z) (name : string) (e : Entry) : Prop :=
  localeCompare (entry e) name = 0.

(* ===================================================================== *)
(** * Vocabulary of the properties *)
(* ===================================================================== *)

(** A string of white space only. *)
Fixpoint blank (s : string) : bool :=
  match s with
  | EmptyString => true
  | String c s' => Js.isWhiteSpace c && blank s'
  end.

(** The object literal of line 134. *)
Definition toObject (e : Entry) : object :=
  [("author", author e); ("definition", definition e)].

(** The element the search of [findDictionaryEntry] lands on. *)
Definition lookup (localeCompare : string -> string -> Z)
    (data : list Entry) (name : string) : option Entry :=
  match search (Dict.compareToName localeCompare) data name with
  | Found i => at_index data i
  | _ => None
  end.

(** The entry a successful /define adds. *)
Definition newEntry (interaction : Interaction) (value0 value1 : string) : Entry :=
  mkEntry (username interaction) (Js.trim value0) (Js.trim value1).

(** The names of the matches as the reply lists them. *)
Definition quoted (m : Entry) : string := dquote ++ entry m ++ dquote.

(** [l] is [l'] with some elements left out, the others in place. *)
Inductive subsequence {X : Type} : list X -> list X -> Prop :=
| sub_nil : subsequence [] []
| sub_skip : forall x l l', subsequence l l' -> subsequence l (x :: l')
| sub_keep : forall x l l', subsequence l l' -> subsequence (x :: l) (x :: l').

(** The store of the substring example. *)
Definition fruit_store : list Entry :=
  [ mkEntry "" "apple" "a red fruit"; mkEntry "" "banana" "a yellow fruit" ].


(** The store after the module loaded an empty file and one /define
    went through. *)
Definition after_define (name text user : string) : World :=
  snd (Dict.handleDefineCommand Collation.localeCompare
         (mkInteraction [name; text] user) (load Collation.localeCompare [])).

(** Two entries whose names differ in case only, and one more. *)
Definition sample_store : list Entry :=
  [ mkEntry "carol" "bar" "a place"; mkEntry "alice" "Foo" "A";
    mkEntry "dave" "FOO" "edited by hand" ].

Ltac sorted_by_computation :=
  unfold sorted;
  repeat (constructor; try (apply Z.leb_le; reflexivity)).

(* ===================================================================== *)
(** * More vocabulary: what the store holds and what was written *)
(* ===================================================================== *)

(** The arrays handed to [fs.writeFile], oldest first. *)
Fixpoint writes (events : list Event) : list (list Entry) :=
  match events with
  | [] => []
  | WriteFile data :: events' => data :: writes events'
  | _ :: events' => writes events'
  end.

(** No entry occurs twice and no two entries carry equivalent names. *)
Definition distinct_names (localeCompare : string -> string -> Z)
    (data : list Entry) : Prop :=
  NoDup data /\
  forall a b, In a data -> In b data ->
              localeCompare (entry a) (entry b) = 0 -> a = b.

(** Every array written was sorted, and the last one written, if any,
    is the array in memory. *)
Definition written_in_step (localeCompare : string -> string -> Z) (w : World) : Prop :=
  Forall (sorted localeCompare) (writes (trace w)) /\
  (writes (trace w) = [] \/ last (writes (trace w)) [] = dictData w).

(** The reply of /dict to a request, read off lines 160-171. *)
Definition dict_reply (localeCompare : string -> string -> Z)
    (store : list Entry) (dictRequested : string) : string :=
  if String.eqb dictRequested "" then "DICT entry for what, /dict WHAT"
  else match lookup localeCompare store dictRequested with
       | Some e => "**DICT:** **" ++ dictRequested ++ "** = " ++ definition e
                   ++ " [added by: " ++ author e ++ "]"
       | None => "**DICT:** No definition for " ++ dictRequested
       end.

(** The character occurs in the string. *)
Fixpoint mentions (c : ascii) (s : string) : bool :=
  match s with
  | EmptyString => false
  | String d s' => Ascii.eqb d c || mentions c s'
  end.

(* ===================================================================== *)
(** * Registration of the commands (lines 262-367) *)
(* ===================================================================== *)

(** A [SlashCommandBuilder] as far as the module fills it in: name,
    description, and for each string option its name, its description
    and whether it is required. *)
Record SlashCommand : Type := mkSlashCommand {
  slash_name : string;
  slash_description : string;
  slash_options : list (string * string * bool)
}.

(** Lines 263-272. *)
Definition dictCommand : SlashCommand :=
  mkSlashCommand "dict" "Retrieve a definition"
    [("phrase", "Phrase to look up", true)].

(** Lines 275-290. *)
Definition defineCommand : SlashCommand :=
  mkSlashCommand "define" "Define a phrase"
    [("phrase", "Phrase to define", true);
     ("definition", "Definition of the phrase", true)].

(** Lines 293-302. *)
Definition indexCommand : SlashCommand :=
  mkSlashCommand "index" "Search dict entries"
    [("search_string", "String to look for (case insensitive)", true)].

(** What [client.commands] holds under a name: [{ data, execute }].
    A call of [execute] either returns or throws; [Some e] is the
    thrown error. *)
Record CommandObject : Type := mkCommandObject {
  data : SlashCommand;
  execute : Interaction -> M (option string)
}.

(** A discord.js [Collection] (a [Map]) with string keys: [get] and
    [set], keys in order of first insertion. *)
Definition Collection (V : Type) : Type := list (string * V).

Fixpoint coll_get {V : Type} (c : Collection V) (key : string) : option V :=
  match c with
  | [] => None
  | (k, v) :: c' => if String.eqb k key then Some v else coll_get c' key
  end.

Fixpoint coll_set {V : Type} (c : Collection V) (key : string) (v : V) : Collection V :=
  match c with
  | [] => [(key, v)]
  | (k, v') :: c' =>
      if String.eqb k key then (key, v) :: c' else (k, v') :: coll_set c' key v
  end.

(** The client as far as this code reads it: [client.commands],
    the ids in [client.channels.cache], [client.user.tag] and
    [client.user.id]. *)
Record Client : Type := mkClient {
  commands : Collection CommandObject;
  channels : list string;
  user_tag : string;
  user_id : string
}.

Definition set_command (client : Client) (c : CommandObject) : Client :=
  mkClient (coll_set (commands client) (slash_name (data c)) c)
    (channels client) (user_tag client) (user_id client).

(** A handler that catches everything it raises, as [execute]. *)
Definition returning (handler : Interaction -> M unit) : Interaction -> M (option string) :=
  fun interaction => handler interaction ;; ret None.

(** Lines 305-316. *)
Definition registerDictCommand (localeCompare : string -> string -> Z)
    (client : Client) : Client :=
  let dict := mkCommandObject dictCommand
                (returning (Dict.handleDictCommand localeCompare)) in
  set_command client dict.

(** Lines 325-336. *)
Definition registerDefineCommand (localeCompare : string -> string -> Z)
    (client : Client) : Client :=
  let define := mkCommandObject defineCommand
                  (returning (Dict.handleDefineCommand localeCompare)) in
  set_command client define.

(** Lines 345-356. *)
Definition registerIndexCommand (client : Client) : Client :=
  let index := mkCommandObject indexCommand (returning Dict.handleIndexCommand) in
  set_command client index.

(* ===================================================================== *)
(** * The class [Bot] (bot.ts) *)
(* ===================================================================== *)

Module Bot.

(** What the bot sends to Discord outside of command replies. *)
Inductive Outgoing : Type :=
| ChannelSend : string -> string -> Outgoing   (* [textChannel.send(text)] on a channel id *)
| MessageReply : string -> Outgoing            (* [message.reply(text)] *)
| MessageEdit : string -> Outgoing.            (* [message.edit]: no files, one embed with this title *)

(** The process around the bot: the dictionary module with the logger,
    what went to [console.error], the content of the file named by the
    REBOOT_FILE setting when [readFileSync] can read it, the traffic
    sent, the lines given to [logDiscordMessage], and how the file
    system fails: the text of the error [readFileSync] throws when it
    cannot read the file, and the text of the error [unlinkSync] throws
    on the file, if it throws. *)
Record Process : Type := mkProcess {
  dict : World;
  console : list string;
  reboot_file : option string;
  outbox : list Outgoing;
  message_log : list string;
  read_error : string;
  unlink_error : option string
}.

Definition logger (e : Event) (p : Process) : Process :=
  mkProcess (snd (emit e (dict p))) (console p) (reboot_file p) (outbox p) (message_log p)
    (read_error p) (unlink_error p).

Definition console_error (s : string) (p : Process) : Process :=
  mkProcess (dict p) (console p ++ [s]) (reboot_file p) (outbox p) (message_log p)
    (read_error p) (unlink_error p).

Definition send (o : Outgoing) (p : Process) : Process :=
  mkProcess (dict p) (console p) (reboot_file p) (outbox p ++ [o]) (message_log p)
    (read_error p) (unlink_error p).

Definition with_dict (w : World) (p : Process) : Process :=
  mkProcess w (console p) (reboot_file p) (outbox p) (message_log p)
    (read_error p) (unlink_error p).

(** An interaction as the gateway delivers it: the two tests and the
    text of [toString()], the client it came through, and what a
    command handler reads of it. *)
Record GatewayInteraction : Type := mkGatewayInteraction {
  isChatInputCommand : bool;
  commandName : string;
  as_text : string;
  client : Client;
  payload : Interaction
}.

(** Lines 87-105. *)
Definition onInteractionCreate (interaction : GatewayInteraction) (p : Process) : Process :=
  if negb (isChatInputCommand interaction) then p
  else
    let p := logger (LogInfo (as_text interaction)) p in
    match coll_get (commands (client interaction)) (commandName interaction) with
    | None =>
        console_error ("No command matching " ++ commandName interaction
                       ++ " was found.") p
    | Some command =>
        match execute command (payload interaction) (dict p) with
        | (None, w) => with_dict w p
        | (Some error, w) =>
            logger (Reply "There was an error while executing this command!")
              (console_error error (with_dict w p))
        end
    end.

(** [s.split(c)] for a separator of one character: the pieces between
    the separators, at least one piece. *)
Fixpoint split (separator : ascii) (s : string) : list string :=
  match s with
  | EmptyString => [EmptyString]
  | String c s' =>
      if Ascii.eqb c separator then EmptyString :: split separator s'
      else match split separator s' with
           | piece :: pieces => String c piece :: pieces
           | [] => [String c EmptyString]
           end
  end.

(** An element of an array of strings read by index. *)
Definition element (pieces : list string) (i : nat) : Js.value :=
  match nth_error pieces i with
  | Some s => Js.str s
  | None => Js.undefined
  end.

(** The object [{ memberId, channelId }] of line 174. *)
Record Rebooted : Type := mkRebooted {
  memberId : Js.value;
  channelId : Js.value
}.

Definition remove_reboot_file (p : Process) : Process :=
  mkProcess (dict p) (console p) None (outbox p) (message_log p)
    (read_error p) (unlink_error p).

(** Lines 166-185.  [toRet] is assigned before the file is unlinked, so
    an [unlinkSync] that throws leaves the result in place. *)
Definition checkRebooted (clearStatus : bool) (p : Process) : option Rebooted * Process :=
  match reboot_file p with
  | Some data =>
      let memberId := element (split ":"%char data) 0 in
      let channelId := element (split ":"%char data) 1 in
      let toRet := Some (mkRebooted memberId channelId) in
      if clearStatus then
        match unlink_error p with
        | None => (toRet, remove_reboot_file p)
        | Some e => (toRet, logger (LogError ("Failed to check for reboot, got " ++ e)) p)
        end
      else (toRet, p)
  | None =>
      (None, logger (LogError ("Failed to check for reboot, got " ++ read_error p)) p)
  end.

(** [channels.cache.get(id)]: a channel for an id in the cache,
    [undefined] for any other id and for [undefined]. *)
Definition cached_channel (c : Client) (id : Js.value) : option string :=
  match id with
  | Js.str s => if existsb (String.eqb s) (channels c) then Some s else None
  | Js.undefined => None
  end.

Definition resurrection : string :=
  ": https://www.asskoala.duckdns.org/bot/resurrection.gif".

(** Lines 107-121.  The call of [send] is taken to return. *)
Definition onClientReady (c : Client) (p : Process) : Process :=
  let p := logger (LogInfo ("Logged in as " ++ user_tag c ++ "!")) p in
  let (rebooted, p) := checkRebooted true p in
  match rebooted with
  | Some r =>
      match cached_channel c (channelId r) with
      | Some textChannel =>
          send (ChannelSend textChannel ("<@" ++ Js.show (memberId r) ++ ">" ++ resurrection)) p
      | None => p
      end
  | None => p
  end.

(** A user as a reaction shows it: [globalName], which is [null] for a
    user without one, and [bot]. *)
Record User : Type := mkUser {
  globalName : option string;
  bot : bool
}.

(** [null] or a string inside a template literal. *)
Definition show_nullable (v : option string) : string :=
  match v with
  | Some s => s
  | None => "null"
  end.

(** A reaction: [emoji.name], [message.author.id] and the users in
    [users.cache]. *)
Record Reaction : Type := mkReaction {
  emoji_name : string;
  message_author_id : string;
  users_cache : list User
}.

(** The cross mark U+274C lies outside Latin-1; it is spelled by its
    UTF-8 bytes.  Only equality with it is ever asked. *)
Definition cross_mark : string :=
  String "226"%char (String "157"%char (String "140"%char EmptyString)).

(** [collection.every(fn)] for a callback that also assigns to a
    variable of the enclosing scope: the callback runs on the entries in
    order until it returns false. *)
Fixpoint every {X S : Type} (fn : X -> S -> S * bool) (l : list X) (s : S) : S * bool :=
  match l with
  | [] => (s, true)
  | x :: l' =>
      let (s', ok) := fn x s in
      if ok then every fn l' s' else (s', false)
  end.

(** Lines 140-164.  The edit is taken to succeed. *)
Definition onMessageReactionAdd (c : Client) (reaction : Reaction) (user : User)
    (p : Process) : Process :=
  if bot user then p
  else if String.eqb (emoji_name reaction) cross_mark
          && String.eqb (message_author_id reaction) (user_id c) then
    let username := Some EmptyString in
    let (username, reactedUser) :=
      every (fun entry (_ : option string) => (globalName entry, false))
        (users_cache reaction) username in
    send (MessageEdit ("Deleted by " ++ show_nullable username ++ ".")) p
  else p.

(** A message as the bot reads it. *)
Record Message : Type := mkMessage {
  content : string;
  author_username : string;
  author_bot : bool
}.

(** A registered listener: what it sends when called with a message,
    and the error it throws, if any. *)
Definition Listener : Type := Message -> list Outgoing * option string.

(** Lines 189-191. *)
Definition registerMessageListener (listenerList : list Listener)
    (listen_func : Listener) : list Listener :=
  listenerList ++ [listen_func].

(** Lines 193-201.  The text of the listener function, which the log
    line quotes, is left out of it. *)
Fixpoint sendMessageToListeners (listenerList : list Listener) (message : Message)
    (p : Process) : Process :=
  match listenerList with
  | [] => p
  | listener_func :: rest =>
      let (sent, thrown) := listener_func message in
      let p := mkProcess (dict p) (console p) (reboot_file p) (outbox p ++ sent)
                 (message_log p) (read_error p) (unlink_error p) in
      let p := match thrown with
               | Some e => logger (LogError ("Failed to send message, got " ++ e)) p
               | None => p
               end in
      sendMessageToListeners rest message p
  end.

Section WithLogger.

(** [Logger.getStandardDiscordMessageFormat], of the logging module. *)
Variable getStandardDiscordMessageFormat : Message -> string.

(** Lines 123-138. *)
Definition onMessageCreate (listenerList : list Listener) (message : Message)
    (p : Process) : Process :=
  let p :=
    if Js.includes (content message) "@slimeline" then
      send (MessageReply ("Hey <@346696662619521026>, " ++ author_username message
                          ++ " wants you!")) p
    else sendMessageToListeners listenerList message p in
  if author_bot message && (String.length (content message) =? 0)%nat then p
  else mkProcess (dict p) (console p) (reboot_file p) (outbox p)
         (message_log p ++ [getStandardDiscordMessageFormat message])
         (read_error p) (unlink_error p).

End WithLogger.

End Bot.

(** A client with one foreign command, and the module's three on it. *)
Definition sample_client : Client :=
  registerIndexCommand
    (registerDefineCommand Collation.localeCompare
       (registerDictCommand Collation.localeCompare
          (mkClient [("ping", mkCommandObject (mkSlashCommand "ping" "Ping" [])
                                (fun _ => ret None))]
             ["100"] "botty#0001" "42"))).

Definition sample_process : Bot.Process :=
  Bot.mkProcess (mkWorld fruit_store []) [] (Some "7:100") [] []
    "Error: ENOENT: no such file or directory" None.

(** The same process on a file system that refuses to unlink. *)
Definition stuck_process : Bot.Process :=
  Bot.mkProcess (mkWorld fruit_store []) [] (Some "7:100") [] []
    "Error: ENOENT: no such file or directory" (Some "Error: EACCES: permission denied").

(* ===================================================================== *)
(** * Facts about the loop of the binary search *)
(* ===================================================================== *)

Section BinarySearchFacts.

Variables A T : Type.
Variable compareFunc : A -> T -> Z.
Variable array : list A.
Variable target : T.

Let n := List.length array.
Let body := loop_body compareFunc array target.
Let run := fun fuel => loop compareFunc fuel array target.

Lemma middle_between (s e : Z) :
  s <= e -> s <= (s + e) / 2 <= e.
Proof.
  intros Hse. Z.to_euclidean_division_equations. lia.
Qed.

Lemma at_index_inv (i : Z) (x : A) :
  at_index array i = Some x ->
  0 <= i < Z.of_nat n /\ nth_error array (Z.to_nat i) = Some x.
Proof.
  unfold at_index.
  destruct (0 <=? i) eqn:H0; destruct (i <? Z.of_nat (List.length array)) eqn:H1;
    simpl; try discriminate.
  intros Hx. apply Z.leb_le in H0. apply Z.ltb_lt in H1. subst n. auto.
Qed.

Lemma at_index_defined (i : Z) :
  0 <= i < Z.of_nat n -> exists x, at_index array i = Some x.
Proof.
  subst n. intros [H0 H1]. unfold at_index.
  rewrite (proj2 (Z.leb_le 0 i) H0), (proj2 (Z.ltb_lt _ _) H1). simpl.
  destruct (nth_error array (Z.to_nat i)) as [x|] eqn:Hn; [eauto|].
  apply nth_error_None in Hn. lia.
Qed.

(** Every way through the body, spelled out. *)
Lemma loop_body_cases (s : LoopState) :
  (end_ s < start s /\ body s = Exit) \/
  (start s <= end_ s /\
   let middle := (start s + end_ s) / 2 in
   (at_index array middle = None /\ body s = Throw) \/
   (exists x, at_index array middle = Some x /\
      ((compareFunc x target = 0 /\ body s = Return middle) \/
       (compareFunc x target < 0 /\ body s = Continue (mkLoop (middle + 1) (end_ s))) \/
       (0 < compareFunc x target /\ body s = Continue (mkLoop (start s) (middle - 1)))))).
Proof.
  subst body. unfold loop_body.
  destruct (start s <=? end_ s) eqn:Hc.
  - apply Z.leb_le in Hc. right. split; [assumption|]. cbv zeta.
    destruct (at_index array ((start s + end_ s) / 2)) as [x|]; [right|left; auto].
    exists x. split; [reflexivity|].
    destruct (compareFunc x target =? 0) eqn:He.
    + apply Z.eqb_eq in He. auto.
    + apply Z.eqb_neq in He.
      destruct (compareFunc x target <? 0) eqn:Hl.
      * apply Z.ltb_lt in Hl. auto.
      * apply Z.ltb_ge in Hl. right. right. split; [lia|reflexivity].
  - apply Z.leb_gt in Hc. left. auto.
Qed.

(** Inside the range of the array the read [array[middle]] is an
    element. *)
Lemma middle_in_bounds (s : LoopState) :
  in_range n s -> start s <= end_ s ->
  0 <= (start s + end_ s) / 2 <= Z.of_nat n - 1 /\
  exists x, at_index array ((start s + end_ s) / 2) = Some x.
Proof.
  intros [H0 H1] Hse.
  pose proof (middle_between _ _ Hse) as Hm.
  split; [lia|]. apply at_index_defined. lia.
Qed.

Lemma body_never_throws (s : LoopState) :
  in_range n s -> body s <> Throw.
Proof.
  intros Hr.
  destruct (loop_body_cases s) as [[_ ->]|[Hse Hc]]; [discriminate|].
  cbv zeta in Hc.
  destruct (middle_in_bounds s Hr Hse) as [_ [x Hx]].
  destruct Hc as [[Hnone _]|[y [_ [[_ ->]|[[_ ->]|[_ ->]]]]]]; try discriminate.
  congruence.
Qed.

(** An iteration keeps the range inside the array and shrinks it. *)
Lemma body_continue (s s' : LoopState) :
  body s = Continue s' ->
  start s <= end_ s /\
  end_ s' - start s' < end_ s - start s /\
  (remaining s' < remaining s)%nat /\
  (in_range n s -> in_range n s').
Proof.
  intros Hb.
  destruct (loop_body_cases s) as [[_ He]|[Hse Hc]]; [congruence|].
  cbv zeta in Hc. pose proof (middle_between _ _ Hse) as Hm.
  unfold remaining, in_range.
  destruct Hc as [[_ He]|[x [_ [[_ He]|[[_ He]|[_ He]]]]]];
    rewrite He in Hb; try discriminate;
    injection Hb as <-; simpl; repeat split; lia.
Qed.

Lemma reachable_in_range (s : LoopState) :
  reachable compareFunc array target s -> in_range n s.
Proof.
  induction 1 as [|s s' _ IH Hb].
  - unfold in_range, initial. simpl. subst n. lia.
  - apply (body_continue s s' Hb). exact IH.
Qed.

(** With a budget above what is left of the range, the loop ends by
    itself, and in a way that does not depend on the budget. *)
Lemma loop_budget (fuel : nat) (s : LoopState) :
  in_range n s -> (remaining s < fuel)%nat ->
  run fuel s <> Diverged /\ run fuel s <> Caught /\
  forall fuel', (remaining s < fuel')%nat -> run fuel' s = run fuel s.
Proof.
  revert s. induction fuel as [|fuel IH]; intros s Hr Hf; [lia|].
  assert (Hstep : forall f, run (S f) s =
            match body s with
            | Exit => NotFound | Return i => Found i
            | Continue s' => run f s' | Throw => Caught end) by reflexivity.
  pose proof (body_never_throws s Hr) as Hnt.
  destruct (body s) as [|i|s'|] eqn:Hb; try congruence.
  - rewrite Hstep. repeat split; try discriminate.
    intros [|f'] Hf'; [lia|]. rewrite Hstep. reflexivity.
  - rewrite Hstep. repeat split; try discriminate.
    intros [|f'] Hf'; [lia|]. rewrite Hstep. reflexivity.
  - destruct (body_continue s s' Hb) as (_ & _ & Hdec & Hr').
    destruct (IH s' (Hr' Hr)) as (Hd & Hc & Hind); [lia|].
    rewrite Hstep. repeat split; try assumption.
    intros [|f'] Hf'; [lia|]. rewrite Hstep. apply Hind. lia.
Qed.

Lemma initial_in_range : in_range n (initial array).
Proof. unfold in_range, initial. simpl. subst n. lia. Qed.

Lemma initial_remaining : remaining (initial array) = n.
Proof. unfold remaining, initial. simpl. subst n. lia. Qed.

Lemma search_ends :
  search compareFunc array target <> Diverged /\
  search compareFunc array target <> Caught.
Proof.
  destruct (loop_budget (S n) (initial array) initial_in_range) as (Hd & Hc & _).
  - rewrite initial_remaining. lia.
  - split; assumption.
Qed.

(** The loop computes what the specification's algorithm describes. *)
Lemma loop_refines_spec (fuel : nat) (s : LoopState) :
  in_range n s -> (remaining s < fuel)%nat ->
  spec_search compareFunc array target (start s) (end_ s) (index_of (run fuel s)).
Proof.
  revert s. induction fuel as [|fuel IH]; intros s Hr Hf; [lia|].
  assert (Hstep : run (S fuel) s =
            match body s with
            | Exit => NotFound | Return i => Found i
            | Continue s' => run fuel s' | Throw => Caught end) by reflexivity.
  rewrite Hstep.
  destruct (loop_body_cases s) as [[Hlt ->]|[Hse Hc]].
  - simpl. apply spec_exhausted. assumption.
  - cbv zeta in Hc.
    destruct Hc as [[_ He]|[x [Hx [[Hc He]|[[Hc He]|[Hc He]]]]]].
    + exfalso. exact (body_never_throws s Hr He).
    + rewrite He. simpl. eapply spec_equal; eassumption.
    + destruct (body_continue s _ He) as (_ & _ & Hdec & Hr').
      rewrite He. eapply spec_before; try eassumption.
      apply (IH (mkLoop ((start s + end_ s) / 2 + 1) (end_ s))); [auto|lia].
    + destruct (body_continue s _ He) as (_ & _ & Hdec & Hr').
      rewrite He. eapply spec_after; try eassumption.
      apply (IH (mkLoop (start s) ((start s + end_ s) / 2 - 1))); [auto|lia].
Qed.

(** ** On a sorted array *)

(** The order of the array, and how the comparison with the target
    follows it. *)
Variable le : A -> A -> Prop.
Hypothesis before_mono :
  forall a b, le a b -> compareFunc b target < 0 -> compareFunc a target < 0.
Hypothesis after_mono :
  forall a b, le a b -> 0 < compareFunc a target -> 0 < compareFunc b target.
Hypothesis array_sorted : StronglySorted le array.

Lemma sorted_nth (l : list A) (i j : nat) (x y : A) :
  StronglySorted le l -> (i < j)%nat ->
  nth_error l i = Some x -> nth_error l j = Some y -> le x y.
Proof.
  intros Hs. revert i j. induction Hs as [|a l Hs IH Hall]; intros i j Hij Hi Hj.
  - destruct i; discriminate.
  - destruct j as [|j]; [lia|]. simpl in Hj.
    destruct i as [|i]; simpl in Hi.
    + injection Hi as <-. rewrite Forall_forall in Hall.
      apply Hall. eapply nth_error_In. eassumption.
    + apply (IH i j); [lia|assumption..].
Qed.

Let covers := covers compareFunc array target.

Lemma covers_initial : covers (initial array).
Proof.
  intros i x Hx _. apply at_index_inv in Hx. unfold initial. simpl. subst n. lia.
Qed.

Lemma covers_continue (s s' : LoopState) :
  covers s -> body s = Continue s' -> covers s'.
Proof.
  intros Hcov Hb i x Hx Hz.
  specialize (Hcov i x Hx Hz).
  destruct (loop_body_cases s) as [[_ He]|[Hse Hc]]; [congruence|].
  cbv zeta in Hc.
  destruct Hc as [[_ He]|[m [Hm [[_ He]|[[Hc He]|[Hc He]]]]]];
    rewrite He in Hb; try discriminate; injection Hb as <-; simpl.
  - (* the middle element is before the target *)
    split; [|lia].
    destruct (Z_lt_le_dec ((start s + end_ s) / 2) i) as [|Hle]; [lia|exfalso].
    apply at_index_inv in Hx as [Hi Hx]. apply at_index_inv in Hm as [Hmi Hm].
    destruct (Z.eq_dec i ((start s + end_ s) / 2)) as [->|Hne].
    + rewrite Hm in Hx. injection Hx as <-. lia.
    + assert (le x m) as Hxm.
      { apply (sorted_nth array (Z.to_nat i) (Z.to_nat ((start s + end_ s) / 2)));
          try assumption. lia. }
      pose proof (before_mono x m Hxm Hc). lia.
  - (* the middle element is after the target *)
    split; [lia|].
    destruct (Z_lt_le_dec i ((start s + end_ s) / 2)) as [|Hle]; [lia|exfalso].
    apply at_index_inv in Hx as [Hi Hx]. apply at_index_inv in Hm as [Hmi Hm].
    destruct (Z.eq_dec i ((start s + end_ s) / 2)) as [->|Hne].
    + rewrite Hm in Hx. injection Hx as <-. lia.
    + assert (le m x) as Hmx.
      { apply (sorted_nth array (Z.to_nat ((start s + end_ s) / 2)) (Z.to_nat i));
          try assumption. lia. }
      pose proof (after_mono m x Hmx Hc). lia.
Qed.

Lemma loop_correct (fuel : nat) (s : LoopState) :
  in_range n s -> (remaining s < fuel)%nat -> covers s ->
  match run fuel s with
  | Found i => exists x, at_index array i = Some x /\ compareFunc x target = 0
  | NotFound => forall i x, at_index array i = Some x -> compareFunc x target <> 0
  | Caught | Diverged => False
  end.
Proof.
  revert s. induction fuel as [|fuel IH]; intros s Hr Hf Hcov; [lia|].
  assert (Hstep : run (S fuel) s =
            match body s with
            | Exit => NotFound | Return i => Found i
            | Continue s' => run fuel s' | Throw => Caught end) by reflexivity.
  rewrite Hstep.
  destruct (loop_body_cases s) as [[Hlt ->]|[Hse Hc]].
  - intros i x Hx Hz. specialize (Hcov i x Hx Hz). lia.
  - cbv zeta in Hc.
    destruct Hc as [[_ He]|[x [Hx [[Hc He]|[[Hc He]|[Hc He]]]]]].
    + exfalso. exact (body_never_throws s Hr He).
    + rewrite He. eauto.
    + destruct (body_continue s _ He) as (_ & _ & Hdec & Hr').
      rewrite He. apply IH; [auto|lia|]. eapply covers_continue; eassumption.
    + destruct (body_continue s _ He) as (_ & _ & Hdec & Hr').
      rewrite He. apply IH; [auto|lia|]. eapply covers_continue; eassumption.
Qed.

Lemma search_correct :
  match search compareFunc array target with
  | Found i => exists x, at_index array i = Some x /\ compareFunc x target = 0
  | NotFound => forall i x, at_index array i = Some x -> compareFunc x target <> 0
  | Caught | Diverged => False
  end.
Proof.
  apply loop_correct.
  - apply initial_in_range.
  - rewrite initial_remaining. lia.
  - apply covers_initial.
Qed.

End BinarySearchFacts.

Lemma loop_found (A T : Type) (compareFunc : A -> T -> Z) (array : list A) (target : T)
    (fuel : nat) (s : LoopState) (i : Z) :
  loop compareFunc fuel array target s = Found i ->
  exists x, at_index array i = Some x /\ compareFunc x target = 0.
Proof.
  revert s. induction fuel as [|fuel IH]; intros s; simpl; [discriminate|].
  destruct (loop_body_cases A T compareFunc array target s) as [[_ ->]|[_ Hc]];
    [discriminate|].
  cbv zeta in Hc.
  destruct Hc as [[_ ->]|[x [Hx [[Hc ->]|[[Hc ->]|[Hc ->]]]]]]; try discriminate.
  - intros [= <-]. eauto.
  - apply IH.
  - apply IH.
Qed.

(* ===================================================================== *)
(** * Facts about the sort *)
(* ===================================================================== *)

Section SortFacts.

Variable A : Type.
Variable comparefn : A -> A -> Z.

Let le := fun a b => comparefn a b <= 0.

Lemma insert_perm (x : A) (l : list A) :
  Permutation (x :: l) (insert comparefn x l).
Proof.
  induction l as [|y l IH]; simpl; [reflexivity|].
  destruct (comparefn x y <=? 0); [reflexivity|].
  rewrite perm_swap. apply perm_skip. exact IH.
Qed.

Lemma sort_perm (l : list A) : Permutation l (sort comparefn l).
Proof.
  induction l as [|x l IH]; simpl; [reflexivity|].
  rewrite <- insert_perm. apply perm_skip. exact IH.
Qed.

Lemma sort_length (l : list A) : List.length (sort comparefn l) = List.length l.
Proof. symmetry. apply Permutation_length, sort_perm. Qed.

(** An array that is already in order comes back as it is. *)
Lemma sort_sorted_id (l : list A) :
  StronglySorted le l -> sort comparefn l = l.
Proof.
  induction 1 as [|x l Hs IH Hall]; simpl; [reflexivity|].
  rewrite IH. destruct l as [|y l]; simpl; [reflexivity|].
  inversion Hall as [|? ? Hxy _]; subst. unfold le in Hxy.
  apply Z.leb_le in Hxy. rewrite Hxy. reflexivity.
Qed.

Hypothesis total : forall a b, 0 < comparefn a b -> comparefn b a <= 0.
Hypothesis trans :
  forall a b c, comparefn a b <= 0 -> comparefn b c <= 0 -> comparefn a c <= 0.

Lemma insert_sorted (x : A) (l : list A) :
  StronglySorted le l -> StronglySorted le (insert comparefn x l).
Proof.
  induction 1 as [|y l Hs IH Hall]; simpl.
  - repeat constructor.
  - destruct (comparefn x y <=? 0) eqn:Hxy.
    + apply Z.leb_le in Hxy. constructor.
      * constructor; assumption.
      * constructor; [exact Hxy|].
        eapply Forall_impl; [|exact Hall]. intros z Hyz. unfold le in *. eauto.
    + apply Z.leb_gt in Hxy. constructor; [exact IH|].
      eapply Permutation_Forall; [apply insert_perm|].
      constructor; [|exact Hall]. unfold le. apply total. lia.
Qed.

Lemma sort_sorted (l : list A) : StronglySorted le (sort comparefn l).
Proof.
  induction l as [|x l IH]; simpl; [constructor|]. apply insert_sorted, IH.
Qed.

End SortFacts.

(* ===================================================================== *)
(** * Facts about strings *)
(* ===================================================================== *)

Lemma append_assoc (a b c : string) : (a ++ b) ++ c = a ++ (b ++ c).
Proof. induction a as [|x a IH]; simpl; [reflexivity|]. rewrite IH. reflexivity. Qed.

Lemma append_empty_r (a : string) : a ++ "" = a.
Proof. induction a as [|x a IH]; simpl; [reflexivity|]. rewrite IH. reflexivity. Qed.

Lemma trimStart_blank (p : string) : blank p = true -> Js.trimStart p = "".
Proof.
  induction p as [|c p IH]; simpl; [reflexivity|].
  intros H. apply andb_prop in H as [Hc Hp]. rewrite Hc. auto.
Qed.

Lemma trimStart_pad_l (p s : string) :
  blank p = true -> Js.trimStart (p ++ s) = Js.trimStart s.
Proof.
  induction p as [|c p IH]; simpl; [reflexivity|].
  intros H. apply andb_prop in H as [Hc Hp]. rewrite Hc. auto.
Qed.

Lemma trimEnd_blank (p : string) : blank p = true -> Js.trimEnd p = "".
Proof.
  induction p as [|c p IH]; simpl; [reflexivity|].
  intros H. apply andb_prop in H as [Hc Hp]. rewrite (IH Hp), Hc. reflexivity.
Qed.

Lemma trimEnd_pad_r (s p : string) :
  blank p = true -> Js.trimEnd (s ++ p) = Js.trimEnd s.
Proof.
  intros Hp. induction s as [|c s IH]; simpl.
  - apply trimEnd_blank, Hp.
  - rewrite IH. reflexivity.
Qed.

Lemma trim_pad_r (s p : string) :
  blank p = true -> Js.trim (s ++ p) = Js.trim s.
Proof.
  intros Hp. unfold Js.trim. induction s as [|c s IH]; simpl.
  - rewrite (trimStart_blank p Hp). reflexivity.
  - destruct (Js.isWhiteSpace c); [exact IH|].
    change (String c (s ++ p)) with (String c s ++ p).
    apply trimEnd_pad_r, Hp.
Qed.

(** White space around a string does not show after [trim]. *)
Lemma trim_pad (p s q : string) :
  blank p = true -> blank q = true -> Js.trim (p ++ s ++ q) = Js.trim s.
Proof.
  intros Hp Hq. unfold Js.trim. rewrite trimStart_pad_l by assumption.
  apply trim_pad_r, Hq.
Qed.

Lemma prefix_split (p s : string) :
  prefix p s = true <-> exists post, s = p ++ post.
Proof.
  revert s. induction p as [|c p IH]; intros s.
  - destruct s; simpl; (split; [intros _; eexists; reflexivity|reflexivity]).
  - destruct s as [|d s]; simpl.
    + split; [discriminate|intros [post H]; discriminate].
    + destruct (ascii_dec c d) as [->|Hne].
      * rewrite IH. split; intros [post H]; exists post; congruence.
      * split; [discriminate|]. intros [post H]. congruence.
Qed.

(** [includes] finds the needle exactly when the haystack is some text,
    the needle, and some more text. *)
Lemma includes_split (haystack needle : string) :
  Js.includes haystack needle = true <->
  exists pre post, haystack = pre ++ needle ++ post.
Proof.
  induction haystack as [|c h IH].
  - change (Js.includes "" needle) with (prefix needle "" || false).
    rewrite orb_false_r, prefix_split. split.
    + intros [post H]. exists "", post. exact H.
    + intros [pre [post H]]. destruct pre; [exists post; exact H|discriminate].
  - change (Js.includes (String c h) needle)
      with (prefix needle (String c h) || Js.includes h needle).
    rewrite orb_true_iff, prefix_split, IH. split.
    + intros [[post H]|[pre [post H]]].
      * exists "", post. exact H.
      * exists (String c pre), post. simpl. rewrite H. reflexivity.
    + intros [pre [post H]]. destruct pre as [|d pre].
      * left. exists post. exact H.
      * right. simpl in H. injection H as _ H. eauto.
Qed.

(* ===================================================================== *)
(** * Facts about the class *)
(* ===================================================================== *)

Section DictFacts.

Variable localeCompare : string -> string -> Z.

Let compareEntries := Dict.compareEntries localeCompare.
Let compareToName := Dict.compareToName localeCompare.

(** The [catch] block of [getIndexOf] is never entered: the call only
    computes a number. *)
Lemma getIndexOf_run (A T : Type) (array : list A) (target : T)
    (compareFunc : A -> T -> Z) (w : World) :
  Dict.getIndexOf array target compareFunc w
  = (index_of (search compareFunc array target), w).
Proof.
  unfold Dict.getIndexOf.
  destruct (search_ends A T compareFunc array target) as [_ Hc].
  destruct (search compareFunc array target); try reflexivity. congruence.
Qed.

Lemma findDictionaryEntry_run (name : string) (w : World) :
  Dict.findDictionaryEntry localeCompare name w
  = (option_map toObject (lookup localeCompare (dictData w) name), w).
Proof.
  unfold Dict.findDictionaryEntry, bind, getData. rewrite getIndexOf_run.
  unfold lookup, search.
  destruct (loop (Dict.compareToName localeCompare)
              (S (List.length (dictData w))) (dictData w) name
              (initial (dictData w))) as [i| | |] eqn:Hs; simpl; try reflexivity.
  apply loop_found in Hs as [x [Hx _]]. rewrite Hx.
  apply at_index_inv in Hx as [Hi _].
  destruct (i =? -1) eqn:He; [apply Z.eqb_eq in He; lia|]. reflexivity.
Qed.

Lemma lookup_sound (data : list Entry) (name : string) (e : Entry) :
  lookup localeCompare data name = Some e ->
  In e data /\ same_name localeCompare name e /\
  exists i, 0 <= i < Z.of_nat (List.length data) /\ at_index data i = Some e.
Proof.
  unfold lookup, search.
  destruct (loop _ _ _ _ _) as [i| | |] eqn:Hs; try discriminate.
  intros He. apply loop_found in Hs as [x [Hx Hz]].
  rewrite He in Hx. injection Hx as <-.
  pose proof (at_index_inv Entry data i e He) as [Hi Hn].
  repeat split; [eapply nth_error_In; eassumption|exact Hz|eauto].
Qed.

Lemma lookup_none (data : list Entry) (name : string) :
  (forall e, In e data -> ~ same_name localeCompare name e) ->
  lookup localeCompare data name = None.
Proof.
  intros Hno. destruct (lookup localeCompare data name) as [e|] eqn:Hl; [|reflexivity].
  apply lookup_sound in Hl as (Hin & Hz & _). destruct (Hno e Hin Hz).
Qed.

Lemma sortDictData_run (w : World) :
  Dict.sortDictData localeCompare w
  = (tt, mkWorld (sort compareEntries (dictData w))
           (trace w ++ [LogInfo ("Sorted " ++ Js.showNat (List.length (dictData w))
                                 ++ " dictionary items.")])).
Proof.
  unfold Dict.sortDictData, Dict.getDictDataEntryCount, bind, getData, setData, emit, ret.
  simpl. rewrite sort_length. reflexivity.
Qed.

(** The branch of /define that adds the entry. *)
Lemma define_fresh (i : Interaction) (v0 v1 : string) (rest : list string) (w : World) :
  options_data i = v0 :: v1 :: rest ->
  lookup localeCompare (dictData w) (Js.trim v0) = None ->
  let data' := sort compareEntries (dictData w ++ [newEntry i v0 v1]) in
  Dict.handleDefineCommand localeCompare i w
  = (tt, mkWorld data'
           (trace w ++
            [LogInfo ("Sorted " ++ Js.showNat (S (List.length (dictData w)))
                      ++ " dictionary items.");
             WriteFile data';
             Reply ("**DICT:** Definition for " ++ Js.trim v0 ++ " added successfully.")])).
Proof.
  intros Hopt Hl. unfold Dict.handleDefineCommand. rewrite Hopt. simpl.
  unfold bind at 1. rewrite findDictionaryEntry_run, Hl. simpl.
  unfold bind, getData, setData. rewrite sortDictData_run.
  unfold Dict.flushDictData, bind, getData, emit. simpl.
  rewrite length_app, Nat.add_1_r, <- !app_assoc. reflexivity.
Qed.

(** The branch of /define that finds the name taken. *)
Lemma define_existing (i : Interaction) (v0 v1 : string) (rest : list string)
    (w : World) (e : Entry) :
  options_data i = v0 :: v1 :: rest ->
  lookup localeCompare (dictData w) (Js.trim v0) = Some e ->
  Dict.handleDefineCommand localeCompare i w
  = (tt, mkWorld (dictData w)
           (trace w ++
            [Reply ("**DICT:** Definition for " ++ Js.trim v0
                    ++ " already exists as: undefined by undefined")])).
Proof.
  intros Hopt Hl. unfold Dict.handleDefineCommand. rewrite Hopt. simpl.
  unfold bind at 1. rewrite findDictionaryEntry_run, Hl. reflexivity.
Qed.

(** No command but a successful /define touches the array. *)
Lemma handleDictCommand_data (i : Interaction) (w : World) :
  dictData (snd (Dict.handleDictCommand localeCompare i w)) = dictData w.
Proof.
  unfold Dict.handleDictCommand. unfold bind at 1. simpl.
  destruct (options_data i) as [|v rest]; [reflexivity|]. simpl.
  destruct (Js.trim v =? "")%string; [reflexivity|].
  unfold bind. rewrite findDictionaryEntry_run.
  destruct (lookup _ _ _); reflexivity.
Qed.

Lemma handleIndexCommand_data (i : Interaction) (w : World) :
  dictData (snd (Dict.handleIndexCommand i w)) = dictData w.
Proof.
  unfold Dict.handleIndexCommand. unfold bind at 1. simpl.
  destruct (options_data i) as [|v rest]; reflexivity.
Qed.

Lemma handleDefineCommand_data (i : Interaction) (w : World) :
  dictData (snd (Dict.handleDefineCommand localeCompare i w)) = dictData w \/
  exists e, dictData (snd (Dict.handleDefineCommand localeCompare i w))
            = sort compareEntries (dictData w ++ [e]).
Proof.
  destruct (options_data i) as [|v0 [|v1 rest]] eqn:Hopt.
  - left. unfold Dict.handleDefineCommand. rewrite Hopt. reflexivity.
  - left. unfold Dict.handleDefineCommand. rewrite Hopt. reflexivity.
  - destruct (lookup localeCompare (dictData w) (Js.trim v0)) as [e|] eqn:Hl.
    + left. rewrite (define_existing i v0 v1 rest w e Hopt Hl). reflexivity.
    + right. rewrite (define_fresh i v0 v1 rest w Hopt Hl). eexists. reflexivity.
Qed.

(** ** With a consistent comparison *)

Hypothesis collator : consistent localeCompare.

Lemma compare_flip_le (a b : string) :
  0 < localeCompare a b -> localeCompare b a <= 0.
Proof. destruct collator as [Hs _]. specialize (Hs a b). lia. Qed.

Lemma compare_flip_lt (a b : string) :
  0 < localeCompare a b <-> localeCompare b a < 0.
Proof. destruct collator as [Hs _]. specialize (Hs a b). lia. Qed.

Lemma compare_self (a : string) : localeCompare a a = 0.
Proof. destruct collator as [Hs _]. specialize (Hs a a). lia. Qed.

Lemma compare_trans (a b c : string) :
  localeCompare a b <= 0 -> localeCompare b c <= 0 -> localeCompare a c <= 0.
Proof. destruct collator as [_ Ht]. apply Ht. Qed.

Lemma sort_is_sorted (data : list Entry) :
  sorted localeCompare (sort compareEntries data).
Proof.
  apply sort_sorted.
  - intros a b. apply compare_flip_le.
  - intros a b c. apply compare_trans.
Qed.

Lemma name_before (a b : Entry) (name : string) :
  compareEntries a b <= 0 -> compareToName b name < 0 -> compareToName a name < 0.
Proof.
  unfold compareEntries, compareToName, Dict.compareEntries, Dict.compareToName.
  intros Hab Hb.
  destruct (Z_lt_le_dec (localeCompare (entry a) name) 0) as [|Hge]; [assumption|exfalso].
  assert (localeCompare name (entry a) <= 0) as Hta.
  { destruct collator as [Hs _]. specialize (Hs (entry a) name). lia. }
  pose proof (compare_trans _ _ _ Hta Hab) as Htb.
  destruct collator as [Hs _]. specialize (Hs (entry b) name). lia.
Qed.

Lemma name_after (a b : Entry) (name : string) :
  compareEntries a b <= 0 -> 0 < compareToName a name -> 0 < compareToName b name.
Proof.
  unfold compareEntries, compareToName, Dict.compareEntries, Dict.compareToName.
  intros Hab Ha.
  destruct (Z_lt_le_dec 0 (localeCompare (entry b) name)) as [|Hle]; [assumption|exfalso].
  pose proof (compare_trans _ _ _ Hab Hle) as Hat. lia.
Qed.

(** On a sorted array the search finds a name whenever an entry
    carries an equivalent one. *)
Lemma lookup_complete (data : list Entry) (name : string) (e : Entry) :
  sorted localeCompare data -> In e data -> same_name localeCompare name e ->
  exists e', lookup localeCompare data name = Some e'.
Proof.
  intros Hs Hin Hz.
  pose proof (search_correct Entry string compareToName data name
                (fun a b => compareEntries a b <= 0)
                (fun a b => name_before a b name)
                (fun a b => name_after a b name) Hs) as Hc.
  unfold lookup. fold compareToName.
  destruct (search compareToName data name) as [i| | |].
  - destruct Hc as [x [Hx _]]. eauto.
  - exfalso. apply In_nth_error in Hin as [k Hk].
    apply (Hc (Z.of_nat k) e); [|exact Hz].
    unfold at_index. rewrite Nat2Z.id.
    assert (k < List.length data)%nat by (apply nth_error_Some; congruence).
    destruct (0 <=? Z.of_nat k) eqn:H0; [|apply Z.leb_gt in H0; lia].
    destruct (Z.of_nat k <? Z.of_nat (List.length data)) eqn:H1;
      [|apply Z.ltb_ge in H1; lia].
    exact Hk.
  - destruct Hc.
  - destruct Hc.
Qed.

End DictFacts.


(* ===================================================================== *)
(** * Facts about the collator *)
(* ===================================================================== *)

Lemma lex_refl (a : list N) : Collation.lex a a = Eq.
Proof.
  induction a as [|x a IH]; simpl; [reflexivity|]. rewrite N.compare_refl. exact IH.
Qed.

Lemma lex_antisym (a b : list N) : Collation.lex b a = CompOpp (Collation.lex a b).
Proof.
  revert b. induction a as [|x a IH]; intros [|y b]; simpl; try reflexivity.
  rewrite (N.compare_antisym x y). destruct (x ?= y)%N; simpl; auto.
Qed.

Lemma lex_eq (a b : list N) : Collation.lex a b = Eq -> a = b.
Proof.
  revert b. induction a as [|x a IH]; intros [|y b]; simpl; try discriminate; auto.
  destruct (x ?= y)%N eqn:Hxy; try discriminate.
  apply N.compare_eq in Hxy. intros H. f_equal; auto.
Qed.

Lemma lex_lt_trans (a b c : list N) :
  Collation.lex a b = Lt -> Collation.lex b c = Lt -> Collation.lex a c = Lt.
Proof.
  revert b c. induction a as [|x a IH]; intros [|y b] [|z c]; simpl;
    try discriminate; auto.
  destruct (x ?= y)%N eqn:Hxy; try discriminate;
    destruct (y ?= z)%N eqn:Hyz; try discriminate.
  - apply N.compare_eq in Hxy, Hyz. subst. rewrite N.compare_refl. apply IH.
  - apply N.compare_eq in Hxy. subst. rewrite Hyz. reflexivity.
  - apply N.compare_eq in Hyz. subst. rewrite Hxy. reflexivity.
  - rewrite N.compare_lt_iff in Hxy, Hyz.
    assert ((x ?= z)%N = Lt) as -> by (apply N.compare_lt_iff; lia). reflexivity.
Qed.

Lemma lex_not_gt_trans (a b c : list N) :
  Collation.lex a b <> Gt -> Collation.lex b c <> Gt -> Collation.lex a c <> Gt.
Proof.
  intros Hab Hbc.
  destruct (Collation.lex a b) eqn:H1; try congruence;
    destruct (Collation.lex b c) eqn:H2; try congruence.
  - apply lex_eq in H1, H2. subst. rewrite lex_refl. discriminate.
  - apply lex_eq in H1. subst. rewrite H2. discriminate.
  - apply lex_eq in H2. subst. rewrite H1. discriminate.
  - rewrite (lex_lt_trans a b c H1 H2). discriminate.
Qed.

Lemma collate_antisym (a b : string) :
  Collation.collate b a = CompOpp (Collation.collate a b).
Proof.
  unfold Collation.collate.
  rewrite (lex_antisym (Collation.primary a) (Collation.primary b)).
  destruct (Collation.lex (Collation.primary a) (Collation.primary b)); simpl; auto.
  apply lex_antisym.
Qed.

Lemma collate_not_gt_trans (a b c : string) :
  Collation.collate a b <> Gt -> Collation.collate b c <> Gt ->
  Collation.collate a c <> Gt.
Proof.
  unfold Collation.collate.
  destruct (Collation.lex (Collation.primary a) (Collation.primary b)) eqn:H1;
    try congruence;
    destruct (Collation.lex (Collation.primary b) (Collation.primary c)) eqn:H2;
    try congruence; intros Hab Hbc.
  - apply lex_eq in H1, H2. rewrite H1, H2, lex_refl.
    eapply lex_not_gt_trans; eassumption.
  - apply lex_eq in H1. rewrite H1, H2. discriminate.
  - apply lex_eq in H2. rewrite <- H2, H1. discriminate.
  - rewrite (lex_lt_trans _ _ _ H1 H2). discriminate.
Qed.

(** The collator is a consistent comparison. *)
Lemma localeCompare_consistent : consistent Collation.localeCompare.
Proof.
  split.
  - intros a b. unfold Collation.localeCompare. rewrite (collate_antisym a b).
    destruct (Collation.collate a b); reflexivity.
  - intros a b c. unfold Collation.localeCompare.
    pose proof (collate_not_gt_trans a b c) as Ht.
    destruct (Collation.collate a b); destruct (Collation.collate b c);
      destruct (Collation.collate a c); intros; try lia;
      exfalso; apply Ht; congruence.
Qed.

(* ===================================================================== *)
(** * The properties of the specification *)
(* ===================================================================== *)

(** C10: binary search memory safety.  For every array, sorted or not,
    and every target, every state the loop of [getIndexOf] reaches keeps
    [0 <= start] and [end <= length - 1]; whenever [start <= end] the
    index [middle] lies in [0, length - 1] and [array[middle]] is an
    element, so the body never throws; [end - start] strictly decreases
    from one iteration to the next; and the call always ends: within
    [length + 1] passes, with the same result under any larger budget,
    and without entering the [catch] block. *)
Theorem getIndexOf_memory_safety (A T : Type) (compareFunc : A -> T -> Z)
    (array : list A) (target : T) :
  (forall s, reachable compareFunc array target s ->
     (0 <= start s /\ end_ s <= Z.of_nat (List.length array) - 1) /\
     (start s <= end_ s ->
        0 <= (start s + end_ s) / 2 <= Z.of_nat (List.length array) - 1 /\
        exists x, at_index array ((start s + end_ s) / 2) = Some x) /\
     loop_body compareFunc array target s <> Throw /\
     (forall s', loop_body compareFunc array target s = Continue s' ->
        end_ s' - start s' < end_ s - start s)) /\
  (search compareFunc array target <> Diverged /\
   search compareFunc array target <> Caught /\
   forall fuel, (List.length array < fuel)%nat ->
     loop compareFunc fuel array target (initial array)
     = search compareFunc array target) /\
  (forall w, snd (Dict.getIndexOf array target compareFunc w) = w).
Proof.
  split; [|split].
  - intros s Hs. pose proof (reachable_in_range A T compareFunc array target s Hs) as Hr.
    split; [exact Hr|]. split; [|split].
    + intros Hse. apply (middle_in_bounds A T compareFunc array target s Hr Hse).
    + apply body_never_throws. exact Hr.
    + intros s' Hb. apply (body_continue A T compareFunc array target s s' Hb).
  - destruct (loop_budget A T compareFunc array target (S (List.length array))
                (initial array) (initial_in_range A array)) as (Hd & Hc & Hf).
    + rewrite initial_remaining. lia.
    + repeat split; try assumption.
      intros fuel Hfuel. apply Hf. rewrite initial_remaining. exact Hfuel.
  - intros w. rewrite getIndexOf_run. reflexivity.
Qed.

(** C8: sort idempotence.  On an array that is already sorted ascending
    by the comparison, [init()] leaves the array as it is, element for
    element, entries with equivalent names included; so does a second
    [init()] after the first. *)
Theorem init_sorted_identity (localeCompare : string -> string -> Z)
    (data : list Entry) (t : list Event) :
  sorted localeCompare data ->
  dictData (snd (Dict.init localeCompare (mkWorld data t))) = data /\
  dictData (snd (Dict.init localeCompare
                   (snd (Dict.init localeCompare (mkWorld data t))))) = data.
Proof.
  intros Hs. unfold Dict.init. rewrite !sortDictData_run. simpl.
  rewrite !(sort_sorted_id Entry (Dict.compareEntries localeCompare) data Hs).
  split; reflexivity.
Qed.

Lemma filter_subsequence {X : Type} (f : X -> bool) (l : list X) :
  subsequence (filter f l) l.
Proof.
  induction l as [|x l IH]; simpl; [constructor|].
  destruct (f x); constructor; exact IH.
Qed.

Lemma listNames_next (i : nat) (matches : list Entry) (out : string) :
  Dict.listNames (S i) matches out
  = out ++ String.concat "" (map (fun m => ", " ++ quoted m) matches).
Proof.
  revert i out. induction matches as [|m rest IH]; intros i out; simpl.
  - symmetry. apply append_empty_r.
  - rewrite IH. unfold quoted. rewrite !append_assoc. destruct rest; simpl.
    + rewrite !append_assoc. reflexivity.
    + rewrite !append_assoc. reflexivity.
Qed.

Lemma concat_separate (x : string) (xs : list string) :
  String.concat ", " (x :: xs)
  = x ++ String.concat "" (map (fun y => ", " ++ y) xs).
Proof.
  revert x. induction xs as [|y ys IH]; intros x.
  - simpl. symmetry. apply append_empty_r.
  - change (String.concat ", " (x :: y :: ys))
      with (x ++ ", " ++ String.concat ", " (y :: ys)).
    rewrite IH. destruct ys; simpl; rewrite ?append_empty_r, ?append_assoc; reflexivity.
Qed.

Lemma listNames_concat (m : Entry) (rest : list Entry) (out : string) :
  Dict.listNames 0 (m :: rest) out
  = out ++ String.concat ", " (map quoted (m :: rest)).
Proof.
  simpl Dict.listNames. rewrite listNames_next.
  change (map quoted (m :: rest)) with (quoted m :: map quoted rest).
  rewrite concat_separate, map_map. unfold quoted, dquote.
  rewrite !append_assoc. simpl. rewrite ?append_assoc. reflexivity.
Qed.

(** What a call of /index with at least one option does. *)
Lemma handleIndexCommand_run (value : string) (rest : list string)
    (user : string) (w : World) :
  let search_string := Js.toLowerCase (Js.trim value) in
  let matches := Dict.matching search_string (dictData w) in
  Dict.handleIndexCommand (mkInteraction (value :: rest) user) w
  = (tt, mkWorld (dictData w)
           (trace w ++
            [DeferReply;
             EditReply
               match matches with
               | [] => "Search string " ++ search_string ++ " not found in entries."
               | _ => "Search string " ++ search_string ++ " found in entries: "
                      ++ String.concat ", " (map quoted matches)
               end])).
Proof.
  intros search_string matches.
  unfold Dict.handleIndexCommand, bind, emit, getData.
  cbn [options_data nth_error dictData trace fst snd].
  fold search_string. fold matches. rewrite <- app_assoc.
  destruct matches as [|m ms]; [reflexivity|].
  cbn [List.length Nat.ltb Nat.leb app].
  rewrite listNames_concat, !append_assoc. reflexivity.
Qed.

(** C7: substring search.  For every store and every search string the
    /index command selects exactly the entries whose lower-cased
    definition contains the (trimmed, lower-cased) search string, in the
    order of the store, and replies with their names; when nothing
    matches it replies that the string was not found and logs no error.
    With apple/"a red fruit" and banana/"a yellow fruit", "fruit" gives
    both entries and "zzz" gives none. *)
Theorem handleIndexCommand_search (value : string) (rest : list string)
    (user : string) (w : World) :
  let search_string := Js.toLowerCase (Js.trim value) in
  let matches := Dict.matching search_string (dictData w) in
  (forall e, In e matches <->
     In e (dictData w) /\
     exists pre post, Js.toLowerCase (definition e) = pre ++ search_string ++ post) /\
  subsequence matches (dictData w) /\
  Dict.handleIndexCommand (mkInteraction (value :: rest) user) w
  = (tt, mkWorld (dictData w)
           (trace w ++
            [DeferReply;
             EditReply
               match matches with
               | [] => "Search string " ++ search_string ++ " not found in entries."
               | _ => "Search string " ++ search_string ++ " found in entries: "
                      ++ String.concat ", " (map quoted matches)
               end])) /\
  Dict.matching "fruit" fruit_store = fruit_store /\
  Dict.matching "zzz" fruit_store = [] /\
  trace (snd (Dict.handleIndexCommand (mkInteraction ["fruit"] user)
                (mkWorld fruit_store [])))
  = [DeferReply;
     EditReply ("Search string fruit found in entries: "
                ++ dquote ++ "apple" ++ dquote ++ ", " ++ dquote ++ "banana" ++ dquote)] /\
  trace (snd (Dict.handleIndexCommand (mkInteraction ["zzz"] user)
                (mkWorld fruit_store [])))
  = [DeferReply; EditReply "Search string zzz not found in entries."].
Proof.
  intros search_string matches.
  split; [|split; [|split; [|repeat split]]].
  - intros e. unfold matches, Dict.matching.
    rewrite filter_In, includes_split. reflexivity.
  - apply filter_subsequence.
  - apply handleIndexCommand_run.
Qed.

(** C9: input trimming.  White space around a user-supplied string never
    shows: /dict, /define and /index do the same with a padded option
    as with the bare one; /index searches for the trimmed, lower-cased
    string; and a /define that goes through stores the trimmed name and
    the trimmed definition, which for a name and a definition without
    surrounding white space are the name and the definition themselves. *)
Theorem handlers_trim_input (localeCompare : string -> string -> Z)
    (p q p' q' name text : string) (rest : list string) (user : string) (w : World) :
  blank p = true -> blank q = true -> blank p' = true -> blank q' = true ->
  let padded := p ++ name ++ q in
  let padded' := p' ++ text ++ q' in
  Dict.handleDictCommand localeCompare (mkInteraction (padded :: rest) user) w
  = Dict.handleDictCommand localeCompare (mkInteraction (name :: rest) user) w /\
  Dict.handleDefineCommand localeCompare (mkInteraction (padded :: padded' :: rest) user) w
  = Dict.handleDefineCommand localeCompare (mkInteraction (name :: text :: rest) user) w /\
  Dict.handleIndexCommand (mkInteraction (padded :: rest) user) w
  = Dict.handleIndexCommand (mkInteraction (name :: rest) user) w /\
  (Dict.matching (Js.toLowerCase (Js.trim name)) (dictData w) = [] ->
   trace (snd (Dict.handleIndexCommand (mkInteraction (padded :: rest) user) w))
   = (trace w ++ [DeferReply;
                  EditReply ("Search string " ++ Js.toLowerCase (Js.trim name)
                             ++ " not found in entries.")])%list) /\
  (lookup localeCompare (dictData w) (Js.trim name) = None ->
   In (mkEntry user (Js.trim name) (Js.trim text))
      (dictData (snd (Dict.handleDefineCommand localeCompare
                        (mkInteraction (padded :: padded' :: rest) user) w))) /\
   (Js.trim name = name -> Js.trim text = text ->
    In (mkEntry user name text)
       (dictData (snd (Dict.handleDefineCommand localeCompare
                         (mkInteraction (padded :: padded' :: rest) user) w))))).
Proof.
  intros Hp Hq Hp' Hq' padded padded'.
  assert (Js.trim padded = Js.trim name) as Hn by (apply trim_pad; assumption).
  assert (Js.trim padded' = Js.trim text) as Ht by (apply trim_pad; assumption).
  assert (Hdef : Dict.handleDefineCommand localeCompare
                   (mkInteraction (padded :: padded' :: rest) user) w
                 = Dict.handleDefineCommand localeCompare
                   (mkInteraction (name :: text :: rest) user) w).
  { unfold Dict.handleDefineCommand. simpl. rewrite Hn, Ht. reflexivity. }
  assert (Hidx : Dict.handleIndexCommand (mkInteraction (padded :: rest) user) w
                 = Dict.handleIndexCommand (mkInteraction (name :: rest) user) w).
  { unfold Dict.handleIndexCommand. simpl. rewrite Hn. reflexivity. }
  split; [|split; [exact Hdef|split; [exact Hidx|split]]].
  - unfold Dict.handleDictCommand. simpl. rewrite Hn. reflexivity.
  - intros Hnone. rewrite Hidx, handleIndexCommand_run. simpl.
    rewrite Hnone. reflexivity.
  - intros Hl. rewrite Hdef.
    rewrite (define_fresh localeCompare (mkInteraction (name :: text :: rest) user)
               name text rest w eq_refl Hl). simpl.
    assert (In (mkEntry user (Js.trim name) (Js.trim text))
              (sort (Dict.compareEntries localeCompare)
                 (dictData w ++ [mkEntry user (Js.trim name) (Js.trim text)]))) as Hin.
    { eapply Permutation_in; [apply sort_perm|]. apply in_or_app. right. left. reflexivity. }
    split; [exact Hin|]. intros Hname Htext.
    unfold newEntry. simpl. rewrite Hname, Htext in Hin |- *. exact Hin.
Qed.

Section ConsistentCollator.

Variable localeCompare : string -> string -> Z.
Hypothesis collator : consistent localeCompare.

Lemma perform_keeps_sorted (o : Operation) (w : World) :
  sorted localeCompare (dictData w) ->
  sorted localeCompare (dictData (snd (perform localeCompare o w))).
Proof.
  intros Hs. destruct o as [|i|i|i]; cbn [perform].
  - unfold Dict.init. rewrite sortDictData_run. apply sort_is_sorted, collator.
  - rewrite handleDictCommand_data. exact Hs.
  - destruct (handleDefineCommand_data localeCompare i w) as [->|[e ->]];
      [exact Hs|apply sort_is_sorted, collator].
  - rewrite handleIndexCommand_data. exact Hs.
Qed.

Lemma performAll_keeps_sorted (os : list Operation) (w : World) :
  sorted localeCompare (dictData w) ->
  sorted localeCompare (dictData (snd (performAll localeCompare os w))).
Proof.
  revert w. induction os as [|o os IH]; intros w Hs; simpl; [exact Hs|].
  unfold bind. destruct (perform localeCompare o w) as [u w'] eqn:He.
  apply IH. change w' with (snd (u, w')). rewrite <- He.
  apply perform_keeps_sorted, Hs.
Qed.

(** C1: sortedness invariant.  [init()] leaves the array sorted
    ascending by the comparison of entry names, whatever the file held;
    so does every /define that adds an entry, from any array; hence
    from any array the result of [init()] followed by any sequence of
    [init()] calls and /dict, /define and /index commands is sorted, and
    in particular the array is sorted after every sequence of operations
    on the loaded module. *)
Theorem sortedness_invariant (file : list Entry) (operations : list Operation) :
  (forall w, sorted localeCompare (dictData (snd (Dict.init localeCompare w)))) /\
  (forall i w,
     dictData (snd (Dict.handleDefineCommand localeCompare i w)) <> dictData w ->
     sorted localeCompare (dictData (snd (Dict.handleDefineCommand localeCompare i w)))) /\
  (forall w,
     sorted localeCompare
       (dictData (snd (performAll localeCompare (Init :: operations) w)))) /\
  sorted localeCompare
    (dictData (snd (performAll localeCompare operations (load localeCompare file)))).
Proof.
  assert (Hinit : forall w, sorted localeCompare (dictData (snd (Dict.init localeCompare w)))).
  { intros w. unfold Dict.init. rewrite sortDictData_run. simpl.
    apply sort_is_sorted, collator. }
  split; [exact Hinit|split; [|split]].
  - intros i w Hne.
    destruct (handleDefineCommand_data localeCompare i w) as [Heq|[e ->]];
      [contradiction|apply sort_is_sorted, collator].
  - intros w. cbn [performAll perform]. unfold bind.
    destruct (Dict.init localeCompare w) as [u w'] eqn:He.
    apply performAll_keeps_sorted. change w' with (snd (u, w')). rewrite <- He.
    apply Hinit.
  - apply performAll_keeps_sorted. apply Hinit.
Qed.

(** C2: binary search correctness.  On an array sorted ascending by the
    comparison, [getIndexOf] computes what the specified algorithm
    (start = 0, end = n - 1, middle = floor((start + end) / 2), equal
    returns middle, before advances start, after retreats end,
    exhaustion gives -1) computes; the result is either -1, which is no
    index, or the index of an element that compares equal to the target;
    it is such an index whenever the array holds an element that
    compares equal, and -1 otherwise.  With no entries
    [findDictionaryEntry] finds nothing, and with one entry it returns
    that entry exactly when the name is equivalent to the entry's. *)
Theorem getIndexOf_correct (data : list Entry) (name : string) (w : World) :
  sorted localeCompare data ->
  let compareFunc := Dict.compareToName localeCompare in
  let r := fst (Dict.getIndexOf data name compareFunc w) in
  spec_search compareFunc data name 0 (Z.of_nat (List.length data) - 1) r /\
  (r = -1 \/
   0 <= r < Z.of_nat (List.length data) /\
   exists x, at_index data r = Some x /\ compareFunc x name = 0) /\
  ((exists e, In e data /\ compareFunc e name = 0) -> r <> -1) /\
  ((forall e, In e data -> compareFunc e name <> 0) -> r = -1) /\
  (forall t, fst (Dict.findDictionaryEntry localeCompare name (mkWorld [] t)) = None) /\
  (forall e t,
     fst (Dict.findDictionaryEntry localeCompare name (mkWorld [e] t))
     = if localeCompare (entry e) name =? 0 then Some (toObject e) else None).
Proof.
  intros Hs compareFunc r. subst r. rewrite getIndexOf_run. cbn [fst].
  pose proof (search_correct Entry string compareFunc data name
                (fun a b => Dict.compareEntries localeCompare a b <= 0)
                (fun a b => name_before localeCompare collator a b name)
                (fun a b => name_after localeCompare collator a b name) Hs) as Hc.
  split; [|split; [|split; [|split; [|split]]]].
  - apply (loop_refines_spec Entry string compareFunc data name
             (S (List.length data)) (initial data)).
    + apply initial_in_range.
    + rewrite initial_remaining. lia.
  - destruct (search compareFunc data name) as [i| | |];
      simpl; auto.
    right. destruct Hc as [x [Hx Hz]].
    split; [apply (at_index_inv Entry data i x Hx)|eauto].
  - intros [e [Hin Hz]].
    destruct (lookup_complete localeCompare collator data name e Hs Hin Hz) as [e' He'].
    unfold lookup in He'. fold compareFunc in He'.
    destruct (search compareFunc data name) as [i| | |];
      try discriminate.
    simpl. apply at_index_inv in He' as [Hi _]. lia.
  - intros Hno.
    destruct (search compareFunc data name) as [i| | |];
      simpl; auto.
    destruct Hc as [x [Hx Hz]]. exfalso.
    apply at_index_inv in Hx as [_ Hx]. apply nth_error_In in Hx.
    exact (Hno x Hx Hz).
  - intros t. rewrite findDictionaryEntry_run. reflexivity.
  - intros e t. rewrite findDictionaryEntry_run. simpl.
    unfold lookup, search, loop, loop_body, initial, Dict.compareToName. simpl.
    destruct (localeCompare (entry e) name =? 0); [reflexivity|].
    destruct (localeCompare (entry e) name <? 0); reflexivity.
Qed.

(** C3: successful insert.  When no entry of the store has a name
    equivalent to the given one, /define appends an entry with the
    (trimmed) name and definition and the user's name, sorts the whole
    array and requests the write of the sorted array; right after the
    call the count is one more, the array is sorted, and
    [findDictionaryEntry] of the name returns the new definition and
    author. *)
Theorem define_adds_entry (i : Interaction) (value0 value1 : string)
    (rest : list string) (w : World) :
  options_data i = value0 :: value1 :: rest ->
  (forall e, In e (dictData w) -> ~ same_name localeCompare (Js.trim value0) e) ->
  let w' := snd (Dict.handleDefineCommand localeCompare i w) in
  let added := mkEntry (username i) (Js.trim value0) (Js.trim value1) in
  dictData w' = sort (Dict.compareEntries localeCompare) (dictData w ++ [added]) /\
  Permutation (added :: dictData w) (dictData w') /\
  sorted localeCompare (dictData w') /\
  fst (Dict.getDictDataEntryCount w') = S (fst (Dict.getDictDataEntryCount w)) /\
  fst (Dict.findDictionaryEntry localeCompare (Js.trim value0) w')
  = Some [("author", username i); ("definition", Js.trim value1)] /\
  trace w'
  = (trace w ++
     [LogInfo ("Sorted " ++ Js.showNat (S (List.length (dictData w)))
               ++ " dictionary items.");
      WriteFile (dictData w');
      Reply ("**DICT:** Definition for " ++ Js.trim value0 ++ " added successfully.")])%list.
Proof.
  intros Hopt Hfresh w' added.
  pose proof (lookup_none localeCompare (dictData w) (Js.trim value0) Hfresh) as Hl.
  pose proof (define_fresh localeCompare i value0 value1 rest w Hopt Hl) as Hrun.
  cbv zeta in Hrun. subst w'. rewrite Hrun. simpl.
  change (newEntry i value0 value1) with added.
  assert (Hperm : Permutation (added :: dictData w)
                    (sort (Dict.compareEntries localeCompare) (dictData w ++ [added]))).
  { rewrite <- sort_perm. rewrite Permutation_app_comm. reflexivity. }
  split; [reflexivity|]. split; [exact Hperm|].
  split; [apply sort_is_sorted, collator|].
  split; [rewrite <- (Permutation_length Hperm); reflexivity|].
  split; [|reflexivity].
  rewrite findDictionaryEntry_run. simpl.
  destruct (lookup_complete localeCompare collator
              (sort (Dict.compareEntries localeCompare) (dictData w ++ [added]))
              (Js.trim value0) added) as [e' He'].
  - apply sort_is_sorted, collator.
  - eapply Permutation_in; [exact Hperm|]. left. reflexivity.
  - unfold same_name. simpl. apply compare_self, collator.
  - rewrite He'. simpl.
    apply lookup_sound in He' as (Hin & Hz & _).
    apply (Permutation_in _ (Permutation_sym Hperm)) in Hin.
    destruct Hin as [<-|Hin]; [reflexivity|].
    destruct (Hfresh e' Hin Hz).
Qed.

(** C5: duplicate-insert atomicity.  When the (sorted) store holds an
    entry whose name is equivalent to the given one, /define only
    replies: the array, and with it every entry and the count, is the
    same after the call as before, and the call neither sorts nor
    requests a write. *)
Theorem define_duplicate_unchanged (i : Interaction) (value0 value1 : string)
    (rest : list string) (w : World) (e : Entry) :
  options_data i = value0 :: value1 :: rest ->
  sorted localeCompare (dictData w) ->
  In e (dictData w) -> same_name localeCompare (Js.trim value0) e ->
  let w' := snd (Dict.handleDefineCommand localeCompare i w) in
  dictData w' = dictData w /\
  fst (Dict.getDictDataEntryCount w') = fst (Dict.getDictDataEntryCount w) /\
  (exists message, trace w' = (trace w ++ [Reply message])%list) /\
  (forall snapshot, In (WriteFile snapshot) (trace w') -> In (WriteFile snapshot) (trace w)).
Proof.
  intros Hopt Hs Hin Hz w'.
  destruct (lookup_complete localeCompare collator (dictData w) (Js.trim value0) e Hs Hin Hz)
    as [e' He'].
  pose proof (define_existing localeCompare i value0 value1 rest w e' Hopt He') as Hrun.
  subst w'. rewrite Hrun. simpl.
  split; [reflexivity|]. split; [reflexivity|]. split; [eexists; reflexivity|].
  intros snapshot Hsn. apply in_app_or in Hsn as [Hsn|[Hsn|[]]]; [exact Hsn|discriminate].
Qed.

End ConsistentCollator.

(* ===================================================================== *)
(** * Scenarios of the specification, on the collator *)
(* ===================================================================== *)

(** C4: duplicate-insert reporting.  After "Foo" = "A" by alice is in
    the store, [findDictionaryEntry] of "foo" returns alice's entry and
    a /define of "foo" = "B" by bob is turned down; the reply the code
    sends reads [existingEntry[1]] and [existingEntry[0]] of an object
    whose keys are "author" and "definition", so it says "undefined by
    undefined" where the definition "A" and the author "alice" belong.
    The same holds for every rejected /define. *)
Theorem define_duplicate_reply :
  let w1 := after_define "Foo" "A" "alice" in
  dictData w1 = [mkEntry "alice" "Foo" "A"] /\
  fst (Dict.findDictionaryEntry Collation.localeCompare "foo" w1)
  = Some [("author", "alice"); ("definition", "A")] /\
  snd (Dict.handleDefineCommand Collation.localeCompare
         (mkInteraction ["foo"; "B"] "bob") w1)
  = mkWorld (dictData w1)
      (trace w1 ++
       [Reply "**DICT:** Definition for foo already exists as: undefined by undefined"]) /\
  (forall localeCompare i value0 value1 rest w existing,
     options_data i = value0 :: value1 :: rest ->
     fst (Dict.findDictionaryEntry localeCompare (Js.trim value0) w) = Some existing ->
     trace (snd (Dict.handleDefineCommand localeCompare i w))
     = (trace w ++
        [Reply ("**DICT:** Definition for " ++ Js.trim value0
                ++ " already exists as: undefined by undefined")])%list).
Proof.
  split; [reflexivity|]. split; [reflexivity|]. split; [reflexivity|].
  intros localeCompare i value0 value1 rest w existing Hopt Hfind.
  rewrite findDictionaryEntry_run in Hfind. simpl in Hfind.
  destruct (lookup localeCompare (dictData w) (Js.trim value0)) as [e|] eqn:Hl;
    [|discriminate].
  rewrite (define_existing localeCompare i value0 value1 rest w e Hopt Hl). reflexivity.
Qed.



(* ===================================================================== *)
(** * The theorems at work on concrete stores *)
(* ===================================================================== *)

Lemma sample_store_sorted : sorted Collation.localeCompare sample_store.
Proof. sorted_by_computation. Qed.

Lemma init_sorted_identity_witness :
  dictData (snd (Dict.init Collation.localeCompare (mkWorld sample_store []))) = sample_store /\
  dictData (snd (Dict.init Collation.localeCompare
                   (snd (Dict.init Collation.localeCompare (mkWorld sample_store [])))))
  = sample_store.
Proof.
  apply (init_sorted_identity Collation.localeCompare sample_store []).
  exact sample_store_sorted.
Defined.

Lemma handlers_trim_input_witness :
  Dict.handleDictCommand Collation.localeCompare (mkInteraction ["  x  "] "alice")
    (mkWorld sample_store [])
  = Dict.handleDictCommand Collation.localeCompare (mkInteraction ["x"] "alice")
      (mkWorld sample_store []).
Proof.
  exact (proj1 (handlers_trim_input Collation.localeCompare "  " "  " "" "" "x" "" []
                  "alice" (mkWorld sample_store []) eq_refl eq_refl eq_refl eq_refl)).
Defined.

Lemma sortedness_invariant_witness :
  sorted Collation.localeCompare
    (dictData (snd (performAll Collation.localeCompare
                      [DefineCmd (mkInteraction ["zebra"; "striped"] "bob");
                       DictCmd (mkInteraction ["foo"] "bob"); Init;
                       DefineCmd (mkInteraction ["apple"; "a red fruit"] "bob")]
                      (load Collation.localeCompare
                         [mkEntry "alice" "Foo" "A"; mkEntry "carol" "bar" "a place"])))).
Proof.
  exact (proj2 (proj2 (proj2
    (sortedness_invariant Collation.localeCompare localeCompare_consistent
       [mkEntry "alice" "Foo" "A"; mkEntry "carol" "bar" "a place"]
       [DefineCmd (mkInteraction ["zebra"; "striped"] "bob");
        DictCmd (mkInteraction ["foo"] "bob"); Init;
        DefineCmd (mkInteraction ["apple"; "a red fruit"] "bob")])))).
Defined.

Lemma getIndexOf_correct_witness :
  fst (Dict.getIndexOf sample_store "BAR" (Dict.compareToName Collation.localeCompare)
         (mkWorld sample_store [])) <> -1.
Proof.
  apply (getIndexOf_correct Collation.localeCompare localeCompare_consistent
           sample_store "BAR" (mkWorld sample_store []) sample_store_sorted).
  exists (mkEntry "carol" "bar" "a place"). split; [left; reflexivity|reflexivity].
Defined.

Lemma define_adds_entry_witness :
  let w := mkWorld sample_store [] in
  let w' := snd (Dict.handleDefineCommand Collation.localeCompare
                   (mkInteraction [" apple "; " a red fruit "] "bob") w) in
  fst (Dict.getDictDataEntryCount w') = S (fst (Dict.getDictDataEntryCount w)) /\
  fst (Dict.findDictionaryEntry Collation.localeCompare "apple" w')
  = Some [("author", "bob"); ("definition", "a red fruit")].
Proof.
  intros w w'.
  destruct (define_adds_entry Collation.localeCompare localeCompare_consistent
              (mkInteraction [" apple "; " a red fruit "] "bob")
              " apple " " a red fruit " [] w eq_refl) as (_ & _ & _ & Hcount & Hfind & _).
  - intros e [<-|[<-|[<-|[]]]]; vm_compute; discriminate.
  - split; [exact Hcount|exact Hfind].
Defined.

Lemma define_duplicate_unchanged_witness :
  let w := after_define "Foo" "A" "alice" in
  let w' := snd (Dict.handleDefineCommand Collation.localeCompare
                   (mkInteraction ["foo"; "B"] "bob") w) in
  dictData w' = dictData w /\
  fst (Dict.getDictDataEntryCount w') = 1%nat.
Proof.
  intros w w'.
  destruct (define_duplicate_unchanged Collation.localeCompare localeCompare_consistent
              (mkInteraction ["foo"; "B"] "bob") "foo" "B" [] w
              (mkEntry "alice" "Foo" "A") eq_refl) as (Hdata & Hcount & _).
  - sorted_by_computation.
  - left. reflexivity.
  - reflexivity.
  - split; [exact Hdata|]. etransitivity; [exact Hcount|reflexivity].
Defined.


(* ===================================================================== *)
(** * Further properties of the dictionary *)
(* ===================================================================== *)

(** What a call of /dict does, with and without an option. *)
Lemma handleDictCommand_run (localeCompare : string -> string -> Z)
    (value : string) (rest : list string) (user : string) (w : World) :
  Dict.handleDictCommand localeCompare (mkInteraction (value :: rest) user) w
  = (tt, mkWorld (dictData w)
           (trace w ++
            [DeferReply;
             EditReply (dict_reply localeCompare (dictData w) (Js.trim value))])).
Proof.
  unfold Dict.handleDictCommand, dict_reply, bind, emit.
  cbn [options_data List.length Nat.ltb Nat.leb nth_error dictData trace fst snd].
  destruct (Js.trim value =? "")%string.
  - cbn [dictData trace]. rewrite <- app_assoc. reflexivity.
  - rewrite findDictionaryEntry_run. cbn [dictData].
    destruct (lookup localeCompare (dictData w) (Js.trim value)) as [e|];
      cbn [option_map dictData trace]; rewrite <- app_assoc; reflexivity.
Qed.

Lemma handleDictCommand_no_option (localeCompare : string -> string -> Z)
    (user : string) (w : World) :
  Dict.handleDictCommand localeCompare (mkInteraction [] user) w
  = (tt, mkWorld (dictData w)
           (trace w ++
            [DeferReply;
             LogErrorTo "Invalid interaction object sent to dict, data length 0!" true])).
Proof.
  unfold Dict.handleDictCommand, bind, emit. simpl. rewrite <- app_assoc. reflexivity.
Qed.

Lemma writes_app (a b : list Event) : writes (a ++ b) = (writes a ++ writes b)%list.
Proof.
  induction a as [|e a IH]; [reflexivity|].
  destruct e; simpl; rewrite IH; reflexivity.
Qed.

(** The two ways a call of /define can leave the world. *)
Lemma handleDefineCommand_effect (localeCompare : string -> string -> Z)
    (i : Interaction) (w : World) :
  let w' := snd (Dict.handleDefineCommand localeCompare i w) in
  exists events, trace w' = (trace w ++ events)%list /\
    ((dictData w' = dictData w /\ writes events = []) \/
     (exists value0 value1 rest,
        options_data i = value0 :: value1 :: rest /\
        lookup localeCompare (dictData w) (Js.trim value0) = None /\
        dictData w' = sort (Dict.compareEntries localeCompare)
                        (dictData w ++ [newEntry i value0 value1]) /\
        writes events = [dictData w'])).
Proof.
  destruct (options_data i) as [|v0 [|v1 rest]] eqn:Hopt.
  - unfold Dict.handleDefineCommand. rewrite Hopt. simpl. eexists. split; [reflexivity|].
    left. split; reflexivity.
  - unfold Dict.handleDefineCommand. rewrite Hopt. simpl.
    exists [Reply "Missing entries for define command, need phrase and definiton plzsir";
            LogWarning ("Failed to get data for define command, got " ++ showOptions [v0])].
    split; [rewrite <- app_assoc; reflexivity|]. left. split; reflexivity.
  - destruct (lookup localeCompare (dictData w) (Js.trim v0)) as [e|] eqn:Hl.
    + rewrite (define_existing localeCompare i v0 v1 rest w e Hopt Hl). simpl.
      eexists. split; [reflexivity|]. left. split; reflexivity.
    + rewrite (define_fresh localeCompare i v0 v1 rest w Hopt Hl). simpl.
      eexists. split; [reflexivity|]. right.
      exists v0, v1, rest. repeat split; assumption.
Qed.

Section EquivalentNames.

Variable localeCompare : string -> string -> Z.
Hypothesis collator : consistent localeCompare.

Lemma compare_zero_sym (a b : string) :
  localeCompare a b = 0 -> localeCompare b a = 0.
Proof. destruct collator as [Hs _]. specialize (Hs a b). lia. Qed.

Lemma compare_zero_trans (a b c : string) :
  localeCompare a b = 0 -> localeCompare b c = 0 -> localeCompare a c = 0.
Proof.
  intros Hab Hbc.
  pose proof (compare_zero_sym a b Hab) as Hba.
  pose proof (compare_zero_sym b c Hbc) as Hcb.
  destruct collator as [Hs Ht].
  assert (localeCompare a c <= 0) by (apply (Ht a b c); lia).
  assert (localeCompare c a <= 0) by (apply (Ht c b a); lia).
  specialize (Hs a c). lia.
Qed.

(** On a sorted array a search that finds nothing means that nothing
    equivalent is there. *)
Lemma lookup_none_inv (data : list Entry) (name : string) :
  sorted localeCompare data ->
  lookup localeCompare data name = None ->
  forall e, In e data -> ~ same_name localeCompare name e.
Proof.
  intros Hs Hl e Hin Hz.
  destruct (lookup_complete localeCompare collator data name e Hs Hin Hz) as [e' He'].
  congruence.
Qed.

(** X1: insert/lookup round trip.  After a /define that goes through, a
    /dict of any spelling equivalent to the defined name (other case,
    other padding) answers with the definition and the author just
    stored. *)
Theorem define_then_dict (i : Interaction) (value0 value1 : string) (rest : list string)
    (w : World) (request : string) (rest' : list string) (user' : string) :
  options_data i = value0 :: value1 :: rest ->
  (forall e, In e (dictData w) -> ~ same_name localeCompare (Js.trim value0) e) ->
  Js.trim request <> "" ->
  localeCompare (Js.trim value0) (Js.trim request) = 0 ->
  let w1 := snd (Dict.handleDefineCommand localeCompare i w) in
  Dict.handleDictCommand localeCompare (mkInteraction (request :: rest') user') w1
  = (tt, mkWorld (dictData w1)
           (trace w1 ++
            [DeferReply;
             EditReply ("**DICT:** **" ++ Js.trim request ++ "** = " ++ Js.trim value1
                        ++ " [added by: " ++ username i ++ "]")])).
Proof.
  intros Hopt Hfresh Hreq Heq w1.
  rewrite handleDictCommand_run. unfold dict_reply.
  destruct (Js.trim request =? "")%string eqn:Hb; [apply String.eqb_eq in Hb; contradiction|].
  pose proof (lookup_none localeCompare (dictData w) (Js.trim value0) Hfresh) as Hl.
  assert (Hdata : dictData w1 = sort (Dict.compareEntries localeCompare)
                                  (dictData w ++ [newEntry i value0 value1])).
  { subst w1. rewrite (define_fresh localeCompare i value0 value1 rest w Hopt Hl).
    reflexivity. }
  assert (Hperm : Permutation (dictData w ++ [newEntry i value0 value1]) (dictData w1)).
  { rewrite Hdata. apply sort_perm. }
  destruct (lookup_complete localeCompare collator (dictData w1) (Js.trim request)
              (newEntry i value0 value1)) as [e' He'].
  - rewrite Hdata. apply sort_is_sorted, collator.
  - eapply Permutation_in; [exact Hperm|]. apply in_or_app. right. left. reflexivity.
  - exact Heq.
  - rewrite He'. apply lookup_sound in He' as (Hin & Hz & _).
    apply (Permutation_in _ (Permutation_sym Hperm)) in Hin.
    apply in_app_or in Hin as [Hin|[<-|[]]]; [|reflexivity].
    exfalso. apply (Hfresh e' Hin). unfold same_name in *.
    apply (compare_zero_trans _ (Js.trim request)); [exact Hz|].
    apply compare_zero_sym. exact Heq.
Qed.

(** X2: what /dict answers.  On a sorted store a non-blank request is
    answered with the definition and author of an entry whose name is
    equivalent to the request whenever the store holds one, and with
    "No definition" when it holds none; the store is left as it is. *)
Theorem dict_answers (request : string) (rest : list string) (user : string) (w : World) :
  sorted localeCompare (dictData w) ->
  Js.trim request <> "" ->
  let run := Dict.handleDictCommand localeCompare (mkInteraction (request :: rest) user) w in
  dictData (snd run) = dictData w /\
  ((exists e, In e (dictData w) /\ same_name localeCompare (Js.trim request) e) ->
   exists e, In e (dictData w) /\ same_name localeCompare (Js.trim request) e /\
     trace (snd run)
     = (trace w ++
        [DeferReply;
         EditReply ("**DICT:** **" ++ Js.trim request ++ "** = " ++ definition e
                    ++ " [added by: " ++ author e ++ "]")])%list) /\
  ((forall e, In e (dictData w) -> ~ same_name localeCompare (Js.trim request) e) ->
   trace (snd run)
   = (trace w ++
      [DeferReply; EditReply ("**DICT:** No definition for " ++ Js.trim request)])%list).
Proof.
  intros Hs Hreq run. subst run. rewrite handleDictCommand_run. cbn [snd dictData trace].
  unfold dict_reply.
  destruct (Js.trim request =? "")%string eqn:Hb; [apply String.eqb_eq in Hb; contradiction|].
  split; [reflexivity|split].
  - intros [e [Hin Hz]].
    destruct (lookup_complete localeCompare collator (dictData w) (Js.trim request) e
                Hs Hin Hz) as [e' He'].
    rewrite He'. apply lookup_sound in He' as (Hin' & Hz' & _).
    exists e'. repeat split; assumption.
  - intros Hno. rewrite (lookup_none localeCompare _ _ Hno). reflexivity.
Qed.

(** X3: /define twice.  Whatever the store, a /define repeated with the
    same options changes nothing the second time: the array after two
    calls is the array after one, and the second call requests no
    write. *)
Theorem define_twice (i : Interaction) (w : World) :
  let w1 := snd (Dict.handleDefineCommand localeCompare i w) in
  let w2 := snd (Dict.handleDefineCommand localeCompare i w1) in
  dictData w2 = dictData w1 /\
  writes (trace w2) = writes (trace w1).
Proof.
  intros w1 w2.
  assert (Hstill : exists events, trace w2 = (trace w1 ++ events)%list /\
                     dictData w2 = dictData w1 /\ writes events = []).
  { destruct (handleDefineCommand_effect localeCompare i w1)
      as [events [Htrace [[Hd Hw]|(v0 & v1 & rest & Hopt & Hnone & _)]]].
    - exists events. repeat split; assumption.
    - exfalso.
      destruct (handleDefineCommand_effect localeCompare i w)
        as [events0 [_ [[Hd0 _]|(v0' & v1' & rest' & Hopt' & Hnone' & Hd0 & _)]]].
      + (* the first call found the name *)
        fold w1 in Hd0.
        destruct (lookup localeCompare (dictData w) (Js.trim v0)) as [e|] eqn:Hl.
        * rewrite Hd0 in Hnone. congruence.
        * pose proof (define_fresh localeCompare i v0 v1 rest w Hopt Hl) as Hrun.
          cbv zeta in Hrun. unfold w1 in Hd0. rewrite Hrun in Hd0. simpl in Hd0.
          assert (Hlen : List.length (sort (Dict.compareEntries localeCompare)
                                        (dictData w ++ [newEntry i v0 v1]))
                         = List.length (dictData w)) by (rewrite Hd0; reflexivity).
          rewrite sort_length, length_app in Hlen. simpl in Hlen. lia.
      + (* the first call added the name *)
        fold w1 in Hd0. rewrite Hopt in Hopt'. injection Hopt' as <- <- <-.
        apply (lookup_none_inv (dictData w1) (Js.trim v0)) with (e := newEntry i v0 v1);
          [rewrite Hd0; apply sort_is_sorted, collator|exact Hnone| |].
        * rewrite Hd0. eapply Permutation_in; [apply sort_perm|].
          apply in_or_app. right. left. reflexivity.
        * unfold same_name. simpl. apply compare_self, collator. }
  destruct Hstill as [events [Htrace [Hd Hw]]].
  split; [exact Hd|]. rewrite Htrace, writes_app, Hw. apply app_nil_r.
Qed.

End EquivalentNames.

(** X4: guards of the handlers.  A /dict with a blank request is
    answered with the usage line, whatever the store holds.  A /dict
    without options defers the reply and hands the error, together with
    the interaction, to the logger; a /define without options does the
    same without deferring.  A /define with one option replies that
    entries are missing and logs a warning that quotes the options.  An
    /index without options defers the reply and logs an error without
    the interaction, so this code never completes that reply.  None of
    these calls touches the array or requests a write. *)
Theorem handlers_guard_their_input (localeCompare : string -> string -> Z)
    (blank_request value : string) (rest : list string) (user : string) (w : World) :
  blank blank_request = true ->
  Dict.handleDictCommand localeCompare (mkInteraction (blank_request :: rest) user) w
  = (tt, mkWorld (dictData w)
           (trace w ++ [DeferReply; EditReply "DICT entry for what, /dict WHAT"])) /\
  Dict.handleDictCommand localeCompare (mkInteraction [] user) w
  = (tt, mkWorld (dictData w)
           (trace w ++
            [DeferReply;
             LogErrorTo "Invalid interaction object sent to dict, data length 0!" true])) /\
  Dict.handleIndexCommand (mkInteraction [] user) w
  = (tt, mkWorld (dictData w)
           (trace w ++
            [DeferReply;
             LogError ("Failed to handle index command, got error " ++ TypeError)])) /\
  Dict.handleDefineCommand localeCompare (mkInteraction [] user) w
  = (tt, mkWorld (dictData w)
           (trace w ++
            [LogErrorTo "Invalid interaction object sent to dict, data length 0!" false])) /\
  Dict.handleDefineCommand localeCompare (mkInteraction [value] user) w
  = (tt, mkWorld (dictData w)
           (trace w ++
            [Reply "Missing entries for define command, need phrase and definiton plzsir";
             LogWarning "Failed to get data for define command, got [object Object]"])).
Proof.
  intros Hb. split; [|split; [|split; [|split]]].
  - rewrite handleDictCommand_run. unfold dict_reply, Js.trim.
    rewrite (trimStart_blank _ Hb). reflexivity.
  - apply handleDictCommand_no_option.
  - unfold Dict.handleIndexCommand, bind, emit. simpl. rewrite <- app_assoc. reflexivity.
  - reflexivity.
  - unfold Dict.handleDefineCommand, bind, emit. simpl. rewrite <- app_assoc. reflexivity.
Qed.

(** What any operation does to the array: nothing, a sort, or a sort
    with one entry added. *)
Lemma perform_data (localeCompare : string -> string -> Z) (o : Operation) (w : World) :
  let w' := snd (perform localeCompare o w) in
  exists events, trace w' = (trace w ++ events)%list /\
    ((dictData w' = dictData w /\ writes events = []) \/
     (dictData w' = sort (Dict.compareEntries localeCompare) (dictData w) /\
      writes events = []) \/
     (exists e, lookup localeCompare (dictData w) (entry e) = None /\
        dictData w' = sort (Dict.compareEntries localeCompare) (dictData w ++ [e]) /\
        writes events = [dictData w'])).
Proof.
  destruct o as [|i|i|i]; cbn [perform].
  - unfold Dict.init. rewrite sortDictData_run. simpl.
    eexists. split; [reflexivity|]. right. left. split; reflexivity.
  - destruct i as [[|v rest] u].
    + rewrite handleDictCommand_no_option. simpl.
      eexists. split; [reflexivity|]. left. split; reflexivity.
    + rewrite handleDictCommand_run. simpl.
      eexists. split; [reflexivity|]. left. split; reflexivity.
  - destruct (handleDefineCommand_effect localeCompare i w)
      as [events [Ht [H|(v0 & v1 & rest & _ & Hl & Hd & Hw)]]].
    + exists events. split; [exact Ht|]. left. exact H.
    + exists events. split; [exact Ht|]. right. right.
      exists (newEntry i v0 v1). repeat split; assumption.
  - destruct i as [[|v rest] u].
    + unfold Dict.handleIndexCommand, bind, emit. simpl. rewrite <- app_assoc.
      eexists. split; [reflexivity|]. left. split; reflexivity.
    + rewrite handleIndexCommand_run. simpl.
      eexists. split; [reflexivity|]. left. split; reflexivity.
Qed.

Lemma performAll_step (localeCompare : string -> string -> Z)
    (o : Operation) (os : list Operation) (w : World) :
  snd (performAll localeCompare (o :: os) w)
  = snd (performAll localeCompare os (snd (perform localeCompare o w))).
Proof.
  cbn [performAll]. unfold bind.
  destruct (perform localeCompare o w) as [u w']. reflexivity.
Qed.

(** X5: nothing is ever removed.  Whatever the store and the
    comparison, after any sequence of operations the array is a
    rearrangement of the array before together with the entries added
    in between: every entry that was there is still there, with its
    fields, and the count never goes down. *)
Theorem entries_never_removed (localeCompare : string -> string -> Z)
    (operations : list Operation) (w : World) :
  let w' := snd (performAll localeCompare operations w) in
  (exists added, Permutation (dictData w ++ added) (dictData w')) /\
  (forall e, In e (dictData w) -> In e (dictData w')) /\
  (fst (Dict.getDictDataEntryCount w) <= fst (Dict.getDictDataEntryCount w'))%nat.
Proof.
  intros w'.
  assert (H : exists added, Permutation (dictData w ++ added) (dictData w')).
  { subst w'. revert w. induction operations as [|o os IH]; intros w.
    - exists []. rewrite app_nil_r. reflexivity.
    - rewrite performAll_step.
      destruct (IH (snd (perform localeCompare o w))) as [added Hadded].
      destruct (perform_data localeCompare o w)
        as [events [_ [[Hd _]|[[Hd _]|[e [_ [Hd _]]]]]]]; rewrite Hd in Hadded.
      + exists added. exact Hadded.
      + exists added. rewrite <- Hadded. apply Permutation_app_tail, sort_perm.
      + exists (e :: added). rewrite <- Hadded.
        change (e :: added) with ([e] ++ added)%list. rewrite app_assoc.
        apply Permutation_app_tail, sort_perm. }
  split; [exact H|]. destruct H as [added Hperm]. split.
  - intros e Hin. eapply Permutation_in; [exact Hperm|]. apply in_or_app. left. exact Hin.
  - unfold Dict.getDictDataEntryCount, bind, getData, ret. simpl.
    rewrite <- (Permutation_length Hperm), length_app. lia.
Qed.

(** X9: a hit is never wrong.  On any array, sorted or not, the number
    [getIndexOf] returns is -1 or the index of an element that compares
    equal to the target, and what [findDictionaryEntry] returns is the
    author and definition of an entry of the store whose name is
    equivalent to the one asked for: an unsorted array can only make
    the search miss. *)
Theorem getIndexOf_never_wrong (localeCompare : string -> string -> Z) :
  (forall (A T : Type) (array : list A) (target : T) (compareFunc : A -> T -> Z) w,
     let r := fst (Dict.getIndexOf array target compareFunc w) in
     r = -1 \/
     0 <= r < Z.of_nat (List.length array) /\
     exists x, at_index array r = Some x /\ compareFunc x target = 0) /\
  (forall name w found,
     fst (Dict.findDictionaryEntry localeCompare name w) = Some found ->
     exists e, In e (dictData w) /\ same_name localeCompare name e /\
               found = toObject e).
Proof.
  split.
  - intros A T array target compareFunc w r. subst r. rewrite getIndexOf_run. cbn [fst].
    unfold search.
    destruct (loop compareFunc (S (List.length array)) array target (initial array))
      as [i| | |] eqn:Hs; simpl; auto.
    right. apply loop_found in Hs as [x [Hx Hz]].
    split; [apply (at_index_inv A array i x Hx)|eauto].
  - intros name w found. rewrite findDictionaryEntry_run. cbn [fst].
    destruct (lookup localeCompare (dictData w) name) as [e|] eqn:Hl; [|discriminate].
    intros [= <-]. apply lookup_sound in Hl as (Hin & Hz & _). eauto.
Qed.

Section LogarithmicSearch.

Variables A T : Type.
Variable compareFunc : A -> T -> Z.
Variable array : list A.
Variable target : T.

(** An iteration leaves at most half of the range. *)
Lemma body_halves (s s' : LoopState) :
  loop_body compareFunc array target s = Continue s' ->
  (2 * remaining s' <= remaining s)%nat.
Proof.
  intros Hb.
  destruct (loop_body_cases A T compareFunc array target s) as [[_ He]|[Hse Hc]];
    [congruence|].
  cbv zeta in Hc.
  assert (Hdiv : 2 * ((start s + end_ s) / 2) <= start s + end_ s
                 /\ start s + end_ s <= 2 * ((start s + end_ s) / 2) + 1).
  { Z.to_euclidean_division_equations. lia. }
  unfold remaining.
  destruct Hc as [[_ He]|[x [_ [[_ He]|[[_ He]|[_ He]]]]]];
    rewrite He in Hb; try discriminate; injection Hb as <-; simpl; lia.
Qed.

Lemma loop_within_log (k : nat) (s : LoopState) :
  (remaining s < 2 ^ k)%nat ->
  loop compareFunc (S k) array target s <> Diverged.
Proof.
  revert s. induction k as [|k IH]; intros s Hr.
  - simpl in Hr. cbn [loop].
    destruct (loop_body_cases A T compareFunc array target s) as [[_ ->]|[Hse _]];
      [discriminate|].
    unfold remaining in Hr. lia.
  - change (loop compareFunc (S (S k)) array target s)
      with (match loop_body compareFunc array target s with
            | Exit => NotFound | Return i => Found i
            | Continue s' => loop compareFunc (S k) array target s'
            | Throw => Caught end).
    destruct (loop_body compareFunc array target s) as [|i|s'|] eqn:Hb; try discriminate.
    apply IH. pose proof (body_halves s s' Hb). rewrite Nat.pow_succ_r' in Hr. lia.
Qed.

(** A loop that ended gives the same result under any larger budget. *)
Lemma loop_more_fuel (fuel extra : nat) (s : LoopState) :
  loop compareFunc fuel array target s <> Diverged ->
  loop compareFunc (fuel + extra) array target s
  = loop compareFunc fuel array target s.
Proof.
  revert s. induction fuel as [|fuel IH]; intros s; [simpl; congruence|].
  cbn [Nat.add loop].
  destruct (loop_body compareFunc array target s); try reflexivity. apply IH.
Qed.

End LogarithmicSearch.

(** X10: the search is logarithmic.  On any array of n elements the
    loop of [getIndexOf] ends within floor(log2 n) + 2 passes, the last
    of which only sees the empty range: run with that budget it gives
    the result of the call. *)
Theorem getIndexOf_logarithmic (A T : Type) (compareFunc : A -> T -> Z)
    (array : list A) (target : T) :
  let passes := (Nat.log2 (List.length array) + 2)%nat in
  loop compareFunc passes array target (initial array) <> Diverged /\
  loop compareFunc passes array target (initial array) = search compareFunc array target.
Proof.
  intros passes.
  assert (Hlt : (List.length array < 2 ^ S (Nat.log2 (List.length array)))%nat).
  { destruct (List.length array) as [|n] eqn:Hn; [simpl; lia|].
    apply Nat.log2_spec. lia. }
  assert (Hend : loop compareFunc passes array target (initial array) <> Diverged).
  { subst passes. replace (Nat.log2 (List.length array) + 2)%nat
      with (S (S (Nat.log2 (List.length array)))) by lia.
    apply loop_within_log. rewrite initial_remaining. exact Hlt. }
  split; [exact Hend|].
  destruct (loop_budget A T compareFunc array target (S (List.length array))
              (initial array) (initial_in_range A array)) as (_ & _ & Hsame).
  { rewrite initial_remaining. lia. }
  unfold search.
  destruct (Nat.le_gt_cases passes (S (List.length array))) as [Hle|Hgt].
  - replace (S (List.length array)) with (passes + (S (List.length array) - passes))%nat by lia.
    symmetry. apply loop_more_fuel. exact Hend.
  - apply Hsame. rewrite initial_remaining. lia.
Qed.

Lemma distinct_names_perm (localeCompare : string -> string -> Z) (l l' : list Entry) :
  Permutation l l' -> distinct_names localeCompare l -> distinct_names localeCompare l'.
Proof.
  intros Hp [Hnd Hd]. split.
  - eapply Permutation_NoDup; eassumption.
  - intros a b Ha Hb. apply Hd; eapply Permutation_in;
      try (apply Permutation_sym; exact Hp); assumption.
Qed.

Section StoreInvariants.

Variable localeCompare : string -> string -> Z.
Hypothesis collator : consistent localeCompare.

Lemma perform_keeps_written (o : Operation) (w : World) :
  sorted localeCompare (dictData w) -> written_in_step localeCompare w ->
  written_in_step localeCompare (snd (perform localeCompare o w)).
Proof.
  intros Hs [Hall Hlast].
  pose proof (perform_keeps_sorted localeCompare collator o w Hs) as Hs'.
  destruct (perform_data localeCompare o w)
    as [events [Ht [[Hd Hw]|[[Hd Hw]|[e [_ [Hd Hw]]]]]]];
    unfold written_in_step; rewrite Ht, writes_app, Hw.
  - rewrite app_nil_r, Hd. split; assumption.
  - rewrite app_nil_r, Hd.
    rewrite (sort_sorted_id Entry (Dict.compareEntries localeCompare) (dictData w) Hs).
    split; assumption.
  - split.
    + apply Forall_app. split; [exact Hall|]. constructor; [exact Hs'|constructor].
    + right. apply last_last.
Qed.

Lemma distinct_names_add (data : list Entry) (e : Entry) :
  distinct_names localeCompare data ->
  (forall a, In a data -> ~ same_name localeCompare (entry e) a) ->
  distinct_names localeCompare (data ++ [e]).
Proof.
  intros [Hnd Hd] Hfresh. split.
  - apply NoDup_app; [exact Hnd|repeat constructor; intros []|].
    intros a Ha [Heq|[]]. subst a. apply (Hfresh e Ha). apply compare_self, collator.
  - intros a b Ha Hb Hz.
    apply in_app_or in Ha as [Ha|[<-|[]]]; apply in_app_or in Hb as [Hb|[<-|[]]].
    + apply Hd; assumption.
    + destruct (Hfresh a Ha Hz).
    + destruct (Hfresh b Hb). apply (compare_zero_sym localeCompare collator). exact Hz.
    + reflexivity.
Qed.

Lemma perform_keeps_distinct (o : Operation) (w : World) :
  sorted localeCompare (dictData w) -> distinct_names localeCompare (dictData w) ->
  distinct_names localeCompare (dictData (snd (perform localeCompare o w))).
Proof.
  intros Hs Hd.
  destruct (perform_data localeCompare o w)
    as [events [_ [[-> _]|[[-> _]|[e [Hl [-> _]]]]]]].
  - exact Hd.
  - eapply distinct_names_perm; [apply sort_perm|exact Hd].
  - eapply distinct_names_perm; [apply sort_perm|].
    apply distinct_names_add; [exact Hd|].
    apply (lookup_none_inv localeCompare collator); assumption.
Qed.

Lemma performAll_keeps (os : list Operation) (w : World) :
  sorted localeCompare (dictData w) ->
  (written_in_step localeCompare w ->
   written_in_step localeCompare (snd (performAll localeCompare os w))) /\
  (distinct_names localeCompare (dictData w) ->
   distinct_names localeCompare (dictData (snd (performAll localeCompare os w)))).
Proof.
  revert w. induction os as [|o os IH]; intros w Hs; [split; auto|].
  rewrite performAll_step.
  destruct (IH (snd (perform localeCompare o w))
              (perform_keeps_sorted localeCompare collator o w Hs)) as [IHw IHd].
  split; intros H.
  - apply IHw, perform_keeps_written; assumption.
  - apply IHd, perform_keeps_distinct; assumption.
Qed.

Lemma load_sorted (file : list Entry) :
  sorted localeCompare (dictData (load localeCompare file)).
Proof.
  unfold load, Dict.init. rewrite sortDictData_run. apply sort_is_sorted, collator.
Qed.

(** X6: what goes to the file.  After the module has loaded, whatever
    the operations, every array handed to [fs.writeFile] was sorted
    when it was written, and the array in memory is the last one
    written as soon as there has been a write: memory and file never
    drift apart by an operation of the module. *)
Theorem file_follows_memory (file : list Entry) (operations : list Operation) :
  let w := snd (performAll localeCompare operations (load localeCompare file)) in
  Forall (sorted localeCompare) (writes (trace w)) /\
  (writes (trace w) = [] \/ last (writes (trace w)) [] = dictData w).
Proof.
  apply (performAll_keeps operations (load localeCompare file)); [apply load_sorted|].
  unfold written_in_step, load, Dict.init. rewrite sortDictData_run. simpl.
  split; [constructor|left; reflexivity].
Qed.

(** X7: names stay unique.  If no two entries of the loaded file carry
    equivalent names, no two entries of the store ever do, whatever
    the operations: /define adds a name only after the search for it
    came back empty on the sorted array. *)
Theorem names_stay_unique (file : list Entry) (operations : list Operation) :
  distinct_names localeCompare file ->
  distinct_names localeCompare
    (dictData (snd (performAll localeCompare operations (load localeCompare file)))).
Proof.
  intros Hd.
  apply (performAll_keeps operations (load localeCompare file)); [apply load_sorted|].
  unfold load, Dict.init. rewrite sortDictData_run. simpl.
  eapply distinct_names_perm; [apply sort_perm|exact Hd].
Qed.

(** X8: the search returns the entry itself.  In a sorted store without
    equivalent names, [findDictionaryEntry] of any spelling equivalent
    to the name of an entry returns the author and the definition of
    that very entry; so after loading a file with unique names and any
    operations, every entry of the store is found under its own name. *)
Theorem find_returns_the_entry (store : list Entry) (events : list Event) :
  sorted localeCompare store -> distinct_names localeCompare store ->
  (forall e name, In e store -> same_name localeCompare name e ->
     fst (Dict.findDictionaryEntry localeCompare name (mkWorld store events))
     = Some [("author", author e); ("definition", definition e)]) /\
  (forall file operations e,
     distinct_names localeCompare file ->
     let w := snd (performAll localeCompare operations (load localeCompare file)) in
     In e (dictData w) ->
     fst (Dict.findDictionaryEntry localeCompare (entry e) w)
     = Some [("author", author e); ("definition", definition e)]).
Proof.
  assert (Hfind : forall data, sorted localeCompare data ->
            distinct_names localeCompare data ->
            forall e name, In e data -> same_name localeCompare name e ->
            lookup localeCompare data name = Some e).
  { intros data Hs [_ Hd] e name Hin Hz.
    destruct (lookup_complete localeCompare collator data name e Hs Hin Hz) as [e' He'].
    rewrite He'. f_equal.
    apply lookup_sound in He' as (Hin' & Hz' & _). apply Hd; try assumption.
    unfold same_name in *.
    apply (compare_zero_trans localeCompare collator _ name); [exact Hz'|].
    apply (compare_zero_sym localeCompare collator). exact Hz. }
  intros Hs Hd. split.
  - intros e name Hin Hz. rewrite findDictionaryEntry_run. cbn [fst dictData].
    rewrite (Hfind store Hs Hd e name Hin Hz). reflexivity.
  - intros file operations e Hfile w Hin. rewrite findDictionaryEntry_run. cbn [fst].
    assert (Hsw : sorted localeCompare (dictData w)).
    { apply performAll_keeps_sorted; [exact collator|apply load_sorted]. }
    assert (Hdw : distinct_names localeCompare (dictData w)).
    { apply (performAll_keeps operations (load localeCompare file)); [apply load_sorted|].
      unfold load, Dict.init. rewrite sortDictData_run. simpl.
      eapply distinct_names_perm; [apply sort_perm|exact Hfile]. }
    rewrite (Hfind (dictData w) Hsw Hdw e (entry e) Hin); [reflexivity|].
    unfold same_name. apply compare_self, collator.
Qed.

End StoreInvariants.

Lemma includes_empty (s : string) : Js.includes s "" = true.
Proof. destruct s; reflexivity. Qed.

Lemma trim_blank (s : string) : blank s = true -> Js.trim s = "".
Proof. intros Hb. unfold Js.trim. rewrite (trimStart_blank s Hb). reflexivity. Qed.

(** X11: a blank search.  /index with an option of white space only
    searches for the empty string, which every definition contains: the
    reply lists every entry of the store, in store order. *)
Theorem index_blank_lists_all (value : string) (rest : list string)
    (user : string) (w : World) :
  blank value = true ->
  Dict.matching (Js.toLowerCase (Js.trim value)) (dictData w) = dictData w /\
  Dict.handleIndexCommand (mkInteraction (value :: rest) user) w
  = (tt, mkWorld (dictData w)
           (trace w ++
            [DeferReply;
             EditReply
               match dictData w with
               | [] => "Search string  not found in entries."
               | _ => "Search string  found in entries: "
                      ++ String.concat ", " (map quoted (dictData w))
               end])).
Proof.
  intros Hb.
  assert (Hall : Dict.matching (Js.toLowerCase (Js.trim value)) (dictData w) = dictData w).
  { rewrite (trim_blank value Hb). unfold Dict.matching.
    induction (dictData w) as [|e l IH]; [reflexivity|].
    cbn [filter]. rewrite includes_empty, IH. reflexivity. }
  split; [exact Hall|].
  rewrite handleIndexCommand_run. cbv zeta. rewrite Hall, (trim_blank value Hb).
  reflexivity.
Qed.

Lemma isWhiteSpace_lowerChar (c : ascii) :
  Js.isWhiteSpace (Js.lowerChar c) = Js.isWhiteSpace c.
Proof. destruct c as [[] [] [] [] [] [] [] []]; reflexivity. Qed.

Lemma lowerChar_idem (c : ascii) : Js.lowerChar (Js.lowerChar c) = Js.lowerChar c.
Proof. destruct c as [[] [] [] [] [] [] [] []]; reflexivity. Qed.

Lemma toLowerCase_idem (s : string) :
  Js.toLowerCase (Js.toLowerCase s) = Js.toLowerCase s.
Proof.
  induction s as [|c s IH]; [reflexivity|]. simpl. rewrite lowerChar_idem, IH. reflexivity.
Qed.

Lemma trimStart_toLowerCase (s : string) :
  Js.trimStart (Js.toLowerCase s) = Js.toLowerCase (Js.trimStart s).
Proof.
  induction s as [|c s IH]; [reflexivity|].
  simpl. rewrite isWhiteSpace_lowerChar. destruct (Js.isWhiteSpace c); [exact IH|reflexivity].
Qed.

Lemma trimEnd_toLowerCase (s : string) :
  Js.trimEnd (Js.toLowerCase s) = Js.toLowerCase (Js.trimEnd s).
Proof.
  induction s as [|c s IH]; [reflexivity|].
  simpl. rewrite IH, isWhiteSpace_lowerChar.
  destruct (Js.trimEnd s); simpl; [destruct (Js.isWhiteSpace c)|]; reflexivity.
Qed.

Lemma trim_toLowerCase (s : string) :
  Js.trim (Js.toLowerCase s) = Js.toLowerCase (Js.trim s).
Proof. unfold Js.trim. rewrite trimStart_toLowerCase, trimEnd_toLowerCase. reflexivity. Qed.

(** X12: the case of the search string.  /index does the same for two
    search strings that agree once lower-cased; in particular it does
    for a string what it does for its lower-case form, reply included. *)
Theorem index_ignores_case (value value' : string) (rest : list string)
    (user : string) (w : World) :
  Js.toLowerCase value = Js.toLowerCase value' ->
  Dict.handleIndexCommand (mkInteraction (value :: rest) user) w
  = Dict.handleIndexCommand (mkInteraction (value' :: rest) user) w /\
  Dict.handleIndexCommand (mkInteraction (Js.toLowerCase value :: rest) user) w
  = Dict.handleIndexCommand (mkInteraction (value :: rest) user) w.
Proof.
  intros Heq.
  assert (H : forall a b, Js.toLowerCase a = Js.toLowerCase b ->
            Dict.handleIndexCommand (mkInteraction (a :: rest) user) w
            = Dict.handleIndexCommand (mkInteraction (b :: rest) user) w).
  { intros a b Hab. rewrite !handleIndexCommand_run. cbv zeta.
    rewrite <- !trim_toLowerCase, Hab. reflexivity. }
  split; [apply H, Heq|]. apply H, toLowerCase_idem.
Qed.

(* ===================================================================== *)
(** * Properties of the registration and of the bot *)
(* ===================================================================== *)

Lemma coll_get_set_same {V : Type} (c : Collection V) (key : string) (v : V) :
  coll_get (coll_set c key v) key = Some v.
Proof.
  induction c as [|[k v'] c IH]; simpl.
  - rewrite String.eqb_refl. reflexivity.
  - destruct (k =? key)%string eqn:Hk; simpl.
    + rewrite String.eqb_refl. reflexivity.
    + rewrite Hk. exact IH.
Qed.

Lemma coll_get_set_other {V : Type} (c : Collection V) (key key' : string) (v : V) :
  key <> key' -> coll_get (coll_set c key v) key' = coll_get c key'.
Proof.
  intros Hne. induction c as [|[k v'] c IH]; simpl.
  - apply String.eqb_neq in Hne. rewrite Hne. reflexivity.
  - destruct (k =? key)%string eqn:Hk; simpl.
    + apply String.eqb_eq in Hk. subst k.
      apply String.eqb_neq in Hne. rewrite Hne. reflexivity.
    + destruct (k =? key')%string; [reflexivity|exact IH].
Qed.

Lemma returning_run (handler : Interaction -> M unit) (i : Interaction) (w : World) :
  returning handler i w = (None, snd (handler i w)).
Proof. unfold returning, bind, ret. destruct (handler i w). reflexivity. Qed.

(** The commands of a client after the three registrations of lines
    365-367, in that order. *)
Lemma registered_commands (localeCompare : string -> string -> Z) (c0 : Client) (name : string) :
  coll_get (commands (registerIndexCommand
                        (registerDefineCommand localeCompare
                           (registerDictCommand localeCompare c0)))) name
  = if (name =? "index")%string then
      Some (mkCommandObject indexCommand (returning Dict.handleIndexCommand))
    else if (name =? "define")%string then
      Some (mkCommandObject defineCommand
              (returning (Dict.handleDefineCommand localeCompare)))
    else if (name =? "dict")%string then
      Some (mkCommandObject dictCommand (returning (Dict.handleDictCommand localeCompare)))
    else coll_get (commands c0) name.
Proof.
  unfold registerIndexCommand, registerDefineCommand, registerDictCommand, set_command.
  cbn [commands data slash_name indexCommand defineCommand dictCommand].
  destruct (name =? "index")%string eqn:Hi.
  { apply String.eqb_eq in Hi. subst name. apply coll_get_set_same. }
  apply String.eqb_neq in Hi.
  rewrite coll_get_set_other by congruence.
  destruct (name =? "define")%string eqn:Hd.
  { apply String.eqb_eq in Hd. subst name. apply coll_get_set_same. }
  apply String.eqb_neq in Hd.
  rewrite coll_get_set_other by congruence.
  destruct (name =? "dict")%string eqn:Hn.
  { apply String.eqb_eq in Hn. subst name. apply coll_get_set_same. }
  apply String.eqb_neq in Hn.
  apply coll_get_set_other. congruence.
Qed.

(** X13: dispatch.  On a client on which the module registered its
    three commands, a chat-input interaction named dict, define or index
    is logged and then does to the dictionary exactly what the handler
    of that name does, with nothing on [console.error] and no error
    reply; the commands other modules registered under other names stay
    in place; an interaction with a name nobody registered is logged,
    reported on [console.error] and leaves the store alone; and an
    interaction that is no chat-input command does nothing at all. *)
Theorem gateway_dispatch (localeCompare : string -> string -> Z) (c0 : Client)
    (interaction : Bot.GatewayInteraction) (p : Bot.Process) :
  Bot.client interaction
  = registerIndexCommand
      (registerDefineCommand localeCompare (registerDictCommand localeCompare c0)) ->
  let name := Bot.commandName interaction in
  let logged := Bot.logger (LogInfo (Bot.as_text interaction)) p in
  let handled handler :=
    Bot.with_dict (snd (handler (Bot.payload interaction) (Bot.dict logged))) logged in
  (Bot.isChatInputCommand interaction = false ->
   Bot.onInteractionCreate interaction p = p) /\
  (Bot.isChatInputCommand interaction = true ->
   (name = "dict" ->
    Bot.onInteractionCreate interaction p
    = handled (Dict.handleDictCommand localeCompare)) /\
   (name = "define" ->
    Bot.onInteractionCreate interaction p
    = handled (Dict.handleDefineCommand localeCompare)) /\
   (name = "index" ->
    Bot.onInteractionCreate interaction p = handled Dict.handleIndexCommand) /\
   (name <> "dict" -> name <> "define" -> name <> "index" ->
    coll_get (commands (Bot.client interaction)) name = coll_get (commands c0) name /\
    (coll_get (commands c0) name = None ->
     Bot.onInteractionCreate interaction p
     = Bot.console_error ("No command matching " ++ name ++ " was found.") logged))).
Proof.
  intros Hclient name logged handled.
  split; [intros Hchat; unfold Bot.onInteractionCreate; rewrite Hchat; reflexivity|].
  intros Hchat.
  assert (Hrun : Bot.onInteractionCreate interaction p
          = match coll_get (commands (Bot.client interaction)) name with
            | None => Bot.console_error ("No command matching " ++ name ++ " was found.")
                        logged
            | Some command =>
                match execute command (Bot.payload interaction) (Bot.dict logged) with
                | (None, w) => Bot.with_dict w logged
                | (Some error, w) =>
                    Bot.logger (Reply "There was an error while executing this command!")
                      (Bot.console_error error (Bot.with_dict w logged))
                end
            end).
  { unfold Bot.onInteractionCreate. rewrite Hchat. reflexivity. }
  rewrite Hrun, Hclient, registered_commands.
  split; [|split; [|split]].
  - intros ->. cbn [String.eqb Ascii.eqb Bool.eqb execute]. rewrite returning_run. reflexivity.
  - intros ->. cbn [String.eqb Ascii.eqb Bool.eqb execute]. rewrite returning_run. reflexivity.
  - intros ->. cbn [String.eqb Ascii.eqb Bool.eqb execute]. rewrite returning_run. reflexivity.
  - intros Hn1 Hn2 Hn3.
    apply String.eqb_neq in Hn1, Hn2, Hn3. rewrite Hn1, Hn2, Hn3.
    split; [reflexivity|]. intros ->. reflexivity.
Qed.

Lemma split_without (c : ascii) (s : string) :
  mentions c s = false -> Bot.split c s = [s].
Proof.
  induction s as [|d s IH]; [reflexivity|].
  simpl. destruct (Ascii.eqb d c); [discriminate|]. simpl.
  intros H. rewrite (IH H). reflexivity.
Qed.

Lemma split_at_first (c : ascii) (s rest : string) :
  mentions c s = false ->
  Bot.split c (s ++ String c rest) = s :: Bot.split c rest.
Proof.
  induction s as [|d s IH]; simpl.
  - intros _. rewrite Ascii.eqb_refl. reflexivity.
  - destruct (Ascii.eqb d c); [discriminate|]. simpl.
    intros H. rewrite (IH H). reflexivity.
Qed.

(** X14: reading the reboot file.  [checkRebooted] takes the member id
    up to the first colon and the channel id up to the second: a file
    "member:channel" gives back both, anything after a second colon is
    dropped, and a file without a colon gives the whole text as member
    id and no channel id.  With clearing asked for, the file is removed
    when [unlinkSync] goes through; when [unlinkSync] throws, the result
    is returned all the same, the error is logged and the file stays.
    Without clearing nothing changes.  When the file cannot be read the
    result is [null], the error is logged and nothing else changes. *)
Theorem checkRebooted_reads (member channel more : string) (clearStatus : bool)
    (p : Bot.Process) :
  mentions ":"%char member = false -> mentions ":"%char channel = false ->
  let both := Some (Bot.mkRebooted (Js.str member) (Js.str channel)) in
  let after p :=
    if clearStatus then
      match Bot.unlink_error p with
      | None => Bot.remove_reboot_file p
      | Some e => Bot.logger (LogError ("Failed to check for reboot, got " ++ e)) p
      end
    else p in
  (Bot.reboot_file p = Some (member ++ ":" ++ channel) ->
   Bot.checkRebooted clearStatus p = (both, after p)) /\
  (Bot.reboot_file p = Some (member ++ ":" ++ channel ++ ":" ++ more) ->
   Bot.checkRebooted clearStatus p = (both, after p)) /\
  (Bot.reboot_file p = Some member ->
   Bot.checkRebooted clearStatus p
   = (Some (Bot.mkRebooted (Js.str member) Js.undefined), after p)) /\
  (Bot.reboot_file p = None ->
   Bot.checkRebooted clearStatus p
   = (None, Bot.logger (LogError ("Failed to check for reboot, got " ++ Bot.read_error p))
              p)) /\
  Bot.reboot_file (Bot.remove_reboot_file p) = None /\
  (forall e, Bot.reboot_file (Bot.logger e p) = Bot.reboot_file p).
Proof.
  intros Hm Hc both after. unfold Bot.checkRebooted.
  split; [|split; [|split; [|split; [|split]]]]; try (intros ->).
  - change (member ++ ":" ++ channel) with (member ++ String ":" channel).
    rewrite (split_at_first _ _ _ Hm), (split_without _ _ Hc).
    subst after. cbv beta. destruct clearStatus; [|reflexivity].
    destruct (Bot.unlink_error p); reflexivity.
  - change (member ++ ":" ++ channel ++ ":" ++ more)
      with (member ++ String ":" (channel ++ String ":" more)).
    rewrite (split_at_first _ _ _ Hm), (split_at_first _ _ _ Hc).
    subst after. cbv beta. destruct clearStatus; [|reflexivity].
    destruct (Bot.unlink_error p); reflexivity.
  - rewrite (split_without _ _ Hm).
    subst after. cbv beta. destruct clearStatus; [|reflexivity].
    destruct (Bot.unlink_error p); reflexivity.
  - reflexivity.
  - reflexivity.
  - reflexivity.
Qed.

Lemma cached_channel_spec (c : Client) (id : string) :
  (In id (channels c) -> Bot.cached_channel c (Js.str id) = Some id) /\
  (~ In id (channels c) -> Bot.cached_channel c (Js.str id) = None).
Proof.
  unfold Bot.cached_channel.
  destruct (existsb (String.eqb id) (channels c)) eqn:He.
  - split; [reflexivity|]. intros Hn. exfalso. apply Hn.
    apply existsb_exists in He as [x [Hx Heq]]. apply String.eqb_eq in Heq. subst. exact Hx.
  - split; [|reflexivity]. intros Hin. exfalso.
    assert (existsb (String.eqb id) (channels c) = true); [|congruence].
    apply existsb_exists. exists id. split; [exact Hin|apply String.eqb_refl].
Qed.

(** What [onClientReady] does, by the state of the file system. *)
Lemma onClientReady_run (c : Client) (p : Bot.Process) :
  let logged := Bot.logger (LogInfo ("Logged in as " ++ user_tag c ++ "!")) p in
  Bot.onClientReady c p
  = match Bot.reboot_file p with
    | None =>
        Bot.logger (LogError ("Failed to check for reboot, got " ++ Bot.read_error p))
          logged
    | Some data =>
        let after :=
          match Bot.unlink_error p with
          | None => Bot.remove_reboot_file logged
          | Some e =>
              Bot.logger (LogError ("Failed to check for reboot, got " ++ e)) logged
          end in
        match Bot.cached_channel c (Bot.element (Bot.split ":" data) 1) with
        | Some textChannel =>
            Bot.send (Bot.ChannelSend textChannel
                        ("<@" ++ Js.show (Bot.element (Bot.split ":" data) 0) ++ ">"
                         ++ Bot.resurrection)) after
        | None => after
        end
    end.
Proof.
  unfold Bot.onClientReady, Bot.checkRebooted.
  cbn [Bot.logger Bot.reboot_file Bot.unlink_error Bot.read_error].
  destruct (Bot.reboot_file p) as [data|]; [|reflexivity].
  destruct (Bot.unlink_error p); reflexivity.
Qed.

(** X15: how often the reboot notice goes out.  One [onClientReady]
    sends at most one message and leaves the dictionary's array alone.
    When the reboot file can be unlinked, or is not there, no file is
    left behind and a second [onClientReady] (a reconnect) sends
    nothing more.  When [unlinkSync] throws, the file stays and a second
    [onClientReady] sends the same notice once more. *)
Theorem reboot_notice_once (c : Client) (p : Bot.Process) :
  let p1 := Bot.onClientReady c p in
  let p2 := Bot.onClientReady c p1 in
  exists notice,
    Bot.outbox p1 = (Bot.outbox p ++ notice)%list /\
    (List.length notice <= 1)%nat /\
    dictData (Bot.dict p1) = dictData (Bot.dict p) /\
    (Bot.unlink_error p = None \/ Bot.reboot_file p = None ->
     Bot.reboot_file p1 = None /\ Bot.outbox p2 = Bot.outbox p1) /\
    (Bot.unlink_error p <> None -> Bot.reboot_file p <> None ->
     Bot.reboot_file p1 = Bot.reboot_file p /\
     Bot.outbox p2 = (Bot.outbox p1 ++ notice)%list).
Proof.
  intros p1 p2. subst p2 p1. rewrite (onClientReady_run c (Bot.onClientReady c p)).
  rewrite (onClientReady_run c p). cbv zeta.
  destruct (Bot.reboot_file p) as [data|] eqn:Hf.
  - destruct (Bot.unlink_error p) as [e|] eqn:Hu;
      destruct (Bot.cached_channel c (Bot.element (Bot.split ":" data) 1))
        as [textChannel|] eqn:Hch;
      cbn [Bot.send Bot.logger Bot.remove_reboot_file Bot.reboot_file Bot.unlink_error
           Bot.read_error Bot.outbox Bot.dict Bot.console Bot.message_log];
      rewrite ?Hf, ?Hu, ?Hch;
      cbn [Bot.send Bot.logger Bot.remove_reboot_file Bot.reboot_file Bot.unlink_error
           Bot.read_error Bot.outbox Bot.dict Bot.console Bot.message_log emit snd dictData].
    + eexists. split; [reflexivity|]. split; [simpl; lia|]. split; [reflexivity|].
      split; [intros [H|H]; discriminate|]. intros _ _. split; reflexivity.
    + exists []. split; [symmetry; apply app_nil_r|]. split; [simpl; lia|].
      split; [reflexivity|].
      split; [intros [H|H]; discriminate|]. intros _ _.
      split; [reflexivity|symmetry; apply app_nil_r].
    + eexists. split; [reflexivity|]. split; [simpl; lia|]. split; [reflexivity|].
      split; [intros _; split; reflexivity|]. intros H. congruence.
    + exists []. split; [symmetry; apply app_nil_r|]. split; [simpl; lia|].
      split; [reflexivity|].
      split; [intros _; split; reflexivity|]. intros H. congruence.
  - cbn [Bot.logger Bot.reboot_file Bot.unlink_error Bot.read_error Bot.outbox Bot.dict
         emit snd dictData].
    rewrite Hf.
    cbn [Bot.logger Bot.reboot_file Bot.unlink_error Bot.read_error Bot.outbox Bot.dict
         emit snd dictData].
    exists []. split; [symmetry; apply app_nil_r|]. split; [simpl; lia|].
    split; [reflexivity|].
    split; [intros _; split; reflexivity|]. intros _ H. congruence.
Qed.

(** X16: when the reboot notice goes out.  With "member:channel" in the
    reboot file, [onClientReady] sends the resurrection line that
    mentions the member on that channel when the channel is in the
    client's cache, and sends nothing when it is not; either way the
    file is gone afterwards if [unlinkSync] went through, so a notice
    for an unknown channel is lost, and is still there if it threw.
    Without file, or with a file that holds no colon, nothing is sent. *)
Theorem reboot_notice_sent (c : Client) (p : Bot.Process) (member channel : string) :
  mentions ":"%char member = false -> mentions ":"%char channel = false ->
  let p1 := Bot.onClientReady c p in
  (Bot.reboot_file p = Some (member ++ ":" ++ channel) ->
   (In channel (channels c) ->
    Bot.outbox p1
    = (Bot.outbox p ++
       [Bot.ChannelSend channel
          ("<@" ++ member ++ ">: https://www.asskoala.duckdns.org/bot/resurrection.gif")])%list) /\
   (~ In channel (channels c) -> Bot.outbox p1 = Bot.outbox p) /\
   Bot.reboot_file p1
   = match Bot.unlink_error p with
     | None => None
     | Some _ => Some (member ++ ":" ++ channel)
     end) /\
  (Bot.reboot_file p = Some member -> Bot.outbox p1 = Bot.outbox p) /\
  (Bot.reboot_file p = None -> Bot.outbox p1 = Bot.outbox p).
Proof.
  intros Hm Hc p1. subst p1. rewrite onClientReady_run. cbv zeta.
  split; [|split]; intros Hf; rewrite Hf.
  - change (member ++ ":" ++ channel) with (member ++ String ":" channel).
    rewrite (split_at_first _ _ _ Hm), (split_without _ _ Hc).
    cbn [Bot.element nth_error Js.show].
    destruct (cached_channel_spec c channel) as [Hin Hout].
    split; [|split].
    + intros H. rewrite (Hin H). destruct (Bot.unlink_error p); reflexivity.
    + intros H. rewrite (Hout H). destruct (Bot.unlink_error p); reflexivity.
    + change (member ++ String ":" channel) with (member ++ ":" ++ channel) in *.
      destruct (Bot.cached_channel c (Js.str channel));
        destruct (Bot.unlink_error p);
        cbn [Bot.send Bot.logger Bot.remove_reboot_file Bot.reboot_file];
        rewrite ?Hf; reflexivity.
  - rewrite (split_without _ _ Hm). cbn [Bot.element nth_error Bot.cached_channel].
    destruct (Bot.unlink_error p); reflexivity.
  - reflexivity.
Qed.

(** X17: deleting by reaction.  A reaction edits a message only when
    the reacting user is no bot, the emoji is the cross mark and the
    message is the bot's own; the edit then names the first user of the
    reaction's cache, whoever reacted ("null" when that user has no
    global name, nothing when the cache is empty).  In every other case
    nothing happens. *)
Theorem reaction_deletes_own_message (c : Client) (reaction : Bot.Reaction)
    (user : Bot.User) (p : Bot.Process) :
  let named := match Bot.users_cache reaction with
               | [] => Some ""
               | first :: _ => Bot.globalName first
               end in
  (Bot.bot user = false -> Bot.emoji_name reaction = Bot.cross_mark ->
   Bot.message_author_id reaction = user_id c ->
   Bot.onMessageReactionAdd c reaction user p
   = Bot.send (Bot.MessageEdit ("Deleted by " ++ Bot.show_nullable named ++ ".")) p) /\
  (Bot.bot user = true \/ Bot.emoji_name reaction <> Bot.cross_mark \/
   Bot.message_author_id reaction <> user_id c ->
   Bot.onMessageReactionAdd c reaction user p = p).
Proof.
  intros named. unfold Bot.onMessageReactionAdd. split.
  - intros -> -> ->. rewrite !String.eqb_refl. cbn [andb].
    subst named. destruct (Bot.users_cache reaction); reflexivity.
  - intros [->|[H|H]]; [reflexivity| |]; destruct (Bot.bot user); try reflexivity;
      apply String.eqb_neq in H; rewrite H; rewrite ?andb_false_r; reflexivity.
Qed.

Lemma sendMessageToListeners_run (listeners : list Bot.Listener) (m : Bot.Message)
    (p : Bot.Process) :
  let p' := Bot.sendMessageToListeners listeners m p in
  Bot.outbox p' = (Bot.outbox p ++ flat_map (fun l => fst (l m)) listeners)%list /\
  trace (Bot.dict p')
  = (trace (Bot.dict p) ++
     flat_map (fun l => match snd (l m) with
                        | Some e => [LogError ("Failed to send message, got " ++ e)]
                        | None => []
                        end) listeners)%list /\
  dictData (Bot.dict p') = dictData (Bot.dict p) /\
  Bot.console p' = Bot.console p /\ Bot.reboot_file p' = Bot.reboot_file p /\
  Bot.message_log p' = Bot.message_log p.
Proof.
  revert p. induction listeners as [|l ls IH]; intros p; cbn [Bot.sendMessageToListeners].
  - simpl. rewrite !app_nil_r. repeat split.
  - destruct (l m) as [sent thrown] eqn:Hl. cbv zeta.
    cbn [flat_map]. rewrite Hl. cbn [fst snd].
    destruct thrown as [e|].
    + destruct (IH (Bot.logger (LogError ("Failed to send message, got " ++ e))
                      (Bot.mkProcess (Bot.dict p) (Bot.console p) (Bot.reboot_file p)
                         (Bot.outbox p ++ sent) (Bot.message_log p)
                         (Bot.read_error p) (Bot.unlink_error p))))
        as (Ho & Ht & Hd & Hc & Hf & Hml).
      rewrite Ho, Ht, Hd, Hc, Hf, Hml. simpl. rewrite <- !app_assoc. repeat split.
    + destruct (IH (Bot.mkProcess (Bot.dict p) (Bot.console p) (Bot.reboot_file p)
                      (Bot.outbox p ++ sent) (Bot.message_log p)
                      (Bot.read_error p) (Bot.unlink_error p)))
        as (Ho & Ht & Hd & Hc & Hf & Hml).
      rewrite Ho, Ht, Hd, Hc, Hf, Hml. simpl. rewrite <- !app_assoc. repeat split.
Qed.

(** X18: delivery of messages.  A message that does not mention
    @slimeline reaches every registered listener once, in the order of
    registration, whether or not earlier listeners threw; each error
    thrown is logged and none reaches the caller.  A message that
    mentions @slimeline gets the reply and reaches no listener.  The
    message is logged unless it comes from a bot with empty content.
    The dictionary's array is never touched. *)
Theorem message_delivery (format : Bot.Message -> string)
    (listeners : list Bot.Listener) (late : Bot.Listener) (m : Bot.Message)
    (p : Bot.Process) :
  let p' := Bot.onMessageCreate format listeners m p in
  (Js.includes (Bot.content m) "@slimeline" = false ->
   Bot.outbox p' = (Bot.outbox p ++ flat_map (fun l => fst (l m)) listeners)%list /\
   trace (Bot.dict p')
   = (trace (Bot.dict p) ++
      flat_map (fun l => match snd (l m) with
                         | Some e => [LogError ("Failed to send message, got " ++ e)]
                         | None => []
                         end) listeners)%list) /\
  (Js.includes (Bot.content m) "@slimeline" = true ->
   Bot.outbox p'
   = (Bot.outbox p ++
      [Bot.MessageReply ("Hey <@346696662619521026>, " ++ Bot.author_username m
                         ++ " wants you!")])%list /\
   Bot.dict p' = Bot.dict p) /\
  Bot.message_log p'
  = (if Bot.author_bot m && (String.length (Bot.content m) =? 0)%nat
     then Bot.message_log p
     else Bot.message_log p ++ [format m])%list /\
  dictData (Bot.dict p') = dictData (Bot.dict p) /\
  Bot.sendMessageToListeners (Bot.registerMessageListener listeners late) m p
  = Bot.sendMessageToListeners [late] m (Bot.sendMessageToListeners listeners m p).
Proof.
  intros p'. subst p'. unfold Bot.onMessageCreate.
  destruct (sendMessageToListeners_run listeners m p) as (Ho & Ht & Hd & _ & _ & Hml).
  cbv zeta in Ho, Ht, Hd, Hml.
  split; [|split; [|split; [|split]]].
  - intros ->.
    destruct (Bot.author_bot m && (String.length (Bot.content m) =? 0)%nat);
      cbn [Bot.outbox Bot.dict]; split; assumption.
  - intros ->.
    destruct (Bot.author_bot m && (String.length (Bot.content m) =? 0)%nat);
      split; reflexivity.
  - destruct (Js.includes (Bot.content m) "@slimeline");
      destruct (Bot.author_bot m && (String.length (Bot.content m) =? 0)%nat);
      cbn [Bot.message_log Bot.send]; rewrite ?Hml; reflexivity.
  - destruct (Js.includes (Bot.content m) "@slimeline");
      destruct (Bot.author_bot m && (String.length (Bot.content m) =? 0)%nat);
      cbn [Bot.dict Bot.send]; rewrite ?Hd; reflexivity.
  - unfold Bot.registerMessageListener. clear Ho Ht Hd Hml. revert p.
    induction listeners as [|l ls IH]; intros p; [reflexivity|].
    cbn [app Bot.sendMessageToListeners]. destruct (l m) as [sent thrown]. apply IH.
Qed.

(** X19: a blank phrase.  /define does not refuse a phrase of white
    space only: when the store holds no entry equivalent to the empty
    name, the entry is stored under the empty name and the count grows
    by one; /dict answers every blank request with the usage line, so
    a blank request does not show that entry. *)
Theorem blank_phrase_is_stored (localeCompare : string -> string -> Z)
    (phrase text : string) (rest : list string) (user : string) (w : World)
    (request : string) (rest' : list string) (user' : string) :
  blank phrase = true -> blank request = true ->
  lookup localeCompare (dictData w) "" = None ->
  let w1 := snd (Dict.handleDefineCommand localeCompare
                   (mkInteraction (phrase :: text :: rest) user) w) in
  In (mkEntry user "" (Js.trim text)) (dictData w1) /\
  List.length (dictData w1) = S (List.length (dictData w)) /\
  trace (snd (Dict.handleDictCommand localeCompare
                (mkInteraction (request :: rest') user') w1))
  = (trace w1 ++ [DeferReply; EditReply "DICT entry for what, /dict WHAT"])%list.
Proof.
  intros Hp Hr Hl w1.
  pose proof (trim_blank phrase Hp) as Hname.
  assert (Hl' : lookup localeCompare (dictData w) (Js.trim phrase) = None)
    by (rewrite Hname; exact Hl).
  pose proof (define_fresh localeCompare (mkInteraction (phrase :: text :: rest) user)
                phrase text rest w eq_refl Hl') as Hrun.
  cbv zeta in Hrun. subst w1. rewrite Hrun. cbn [snd dictData].
  unfold newEntry. cbn [username]. rewrite Hname.
  split; [|split].
  - eapply Permutation_in; [apply sort_perm|]. apply in_or_app. right. left. reflexivity.
  - rewrite sort_length, length_app. simpl. lia.
  - rewrite handleDictCommand_run. cbn [snd trace dictData].
    unfold dict_reply. rewrite (trim_blank request Hr). reflexivity.
Qed.

(* ===================================================================== *)
(** * The further properties at work *)
(* ===================================================================== *)

Lemma fruit_store_sorted : sorted Collation.localeCompare fruit_store.
Proof. sorted_by_computation. Qed.

Lemma fruit_store_distinct : distinct_names Collation.localeCompare fruit_store.
Proof.
  split.
  - repeat constructor; simpl; intuition discriminate.
  - intros a b [<-|[<-|[]]] [<-|[<-|[]]] H; try reflexivity; vm_compute in H; discriminate.
Qed.

Lemma define_then_dict_witness :
  let w1 := snd (Dict.handleDefineCommand Collation.localeCompare
                   (mkInteraction ["Cherry"; "a small fruit"] "bob")
                   (mkWorld fruit_store [])) in
  trace (snd (Dict.handleDictCommand Collation.localeCompare
                (mkInteraction [" cherry "] "eve") w1))
  = (trace w1 ++
     [DeferReply; EditReply "**DICT:** **cherry** = a small fruit [added by: bob]"])%list.
Proof.
  intros w1.
  pose proof (define_then_dict Collation.localeCompare localeCompare_consistent
                (mkInteraction ["Cherry"; "a small fruit"] "bob")
                "Cherry" "a small fruit" [] (mkWorld fruit_store [])
                " cherry " [] "eve" eq_refl) as H.
  cbv zeta in H. fold w1 in H. rewrite H; [reflexivity| | |reflexivity].
  - intros e [<-|[<-|[]]]; vm_compute; discriminate.
  - vm_compute. discriminate.
Defined.

Lemma dict_answers_witness :
  trace (snd (Dict.handleDictCommand Collation.localeCompare
                (mkInteraction ["Pear"] "eve") (mkWorld fruit_store [])))
  = [DeferReply; EditReply "**DICT:** No definition for Pear"].
Proof.
  pose proof (dict_answers Collation.localeCompare localeCompare_consistent
                "Pear" [] "eve" (mkWorld fruit_store []) fruit_store_sorted) as H.
  cbv zeta in H. apply H.
  - vm_compute. discriminate.
  - intros e [<-|[<-|[]]]; vm_compute; discriminate.
Defined.

Lemma define_twice_witness :
  let i := mkInteraction ["Cherry"; "a small fruit"] "bob" in
  let w1 := snd (Dict.handleDefineCommand Collation.localeCompare i
                   (mkWorld fruit_store [])) in
  dictData (snd (Dict.handleDefineCommand Collation.localeCompare i w1)) = dictData w1.
Proof.
  exact (proj1 (define_twice Collation.localeCompare localeCompare_consistent
                  (mkInteraction ["Cherry"; "a small fruit"] "bob")
                  (mkWorld fruit_store []))).
Defined.

Lemma handlers_guard_their_input_witness :
  Dict.handleDictCommand Collation.localeCompare (mkInteraction ["   "] "eve")
    (mkWorld fruit_store [])
  = (tt, mkWorld fruit_store [DeferReply; EditReply "DICT entry for what, /dict WHAT"]).
Proof.
  exact (proj1 (handlers_guard_their_input Collation.localeCompare "   " "x" [] "eve"
                  (mkWorld fruit_store []) eq_refl)).
Defined.

Lemma file_follows_memory_witness :
  let w := snd (performAll Collation.localeCompare
                  [DefineCmd (mkInteraction ["Cherry"; "a small fruit"] "bob");
                   Init; DictCmd (mkInteraction ["cherry"] "eve")]
                  (load Collation.localeCompare fruit_store)) in
  writes (trace w) = [] \/ last (writes (trace w)) [] = dictData w.
Proof.
  exact (proj2 (file_follows_memory Collation.localeCompare localeCompare_consistent
                  fruit_store
                  [DefineCmd (mkInteraction ["Cherry"; "a small fruit"] "bob");
                   Init; DictCmd (mkInteraction ["cherry"] "eve")])).
Defined.

Lemma names_stay_unique_witness :
  distinct_names Collation.localeCompare
    (dictData (snd (performAll Collation.localeCompare
                      [DefineCmd (mkInteraction ["Cherry"; "a small fruit"] "bob");
                       DefineCmd (mkInteraction ["CHERRY"; "again"] "eve")]
                      (load Collation.localeCompare fruit_store)))).
Proof.
  exact (names_stay_unique Collation.localeCompare localeCompare_consistent fruit_store
           [DefineCmd (mkInteraction ["Cherry"; "a small fruit"] "bob");
            DefineCmd (mkInteraction ["CHERRY"; "again"] "eve")]
           fruit_store_distinct).
Defined.

Lemma find_returns_the_entry_witness :
  fst (Dict.findDictionaryEntry Collation.localeCompare "BANANA" (mkWorld fruit_store []))
  = Some [("author", ""); ("definition", "a yellow fruit")].
Proof.
  apply (proj1 (find_returns_the_entry Collation.localeCompare localeCompare_consistent
                  fruit_store [] fruit_store_sorted fruit_store_distinct)
           (mkEntry "" "banana" "a yellow fruit") "BANANA").
  - right. left. reflexivity.
  - reflexivity.
Defined.

Lemma index_blank_lists_all_witness :
  Dict.matching (Js.toLowerCase (Js.trim "  ")) fruit_store = fruit_store.
Proof.
  exact (proj1 (index_blank_lists_all "  " [] "eve" (mkWorld fruit_store []) eq_refl)).
Defined.

Lemma index_ignores_case_witness :
  Dict.handleIndexCommand (mkInteraction ["FRUIT"] "eve") (mkWorld fruit_store [])
  = Dict.handleIndexCommand (mkInteraction ["Fruit"] "eve") (mkWorld fruit_store []).
Proof.
  exact (proj1 (index_ignores_case "FRUIT" "Fruit" [] "eve" (mkWorld fruit_store [])
                  eq_refl)).
Defined.

Lemma gateway_dispatch_witness :
  dictData (Bot.dict (Bot.onInteractionCreate
                        (Bot.mkGatewayInteraction true "define" "/define" sample_client
                           (mkInteraction ["Cherry"; "a small fruit"] "bob"))
                        sample_process))
  = [mkEntry "" "apple" "a red fruit"; mkEntry "" "banana" "a yellow fruit";
     mkEntry "bob" "Cherry" "a small fruit"].
Proof.
  pose proof (gateway_dispatch Collation.localeCompare
                (mkClient [("ping", mkCommandObject (mkSlashCommand "ping" "Ping" [])
                                      (fun _ => ret None))]
                   ["100"] "botty#0001" "42")
                (Bot.mkGatewayInteraction true "define" "/define" sample_client
                   (mkInteraction ["Cherry"; "a small fruit"] "bob"))
                sample_process eq_refl) as H.
  cbv zeta in H. destruct H as [_ H]. destruct (H eq_refl) as (_ & Hdefine & _).
  rewrite (Hdefine eq_refl). reflexivity.
Defined.

Lemma checkRebooted_reads_witness :
  Bot.checkRebooted true stuck_process
  = (Some (Bot.mkRebooted (Js.str "7") (Js.str "100")),
     Bot.logger (LogError "Failed to check for reboot, got Error: EACCES: permission denied")
       stuck_process).
Proof.
  pose proof (checkRebooted_reads "7" "100" "" true stuck_process eq_refl eq_refl) as H.
  cbv zeta in H. destruct H as [H _]. rewrite (H eq_refl). reflexivity.
Defined.

Lemma reboot_notice_sent_witness :
  Bot.outbox (Bot.onClientReady sample_client sample_process)
  = [Bot.ChannelSend "100" "<@7>: https://www.asskoala.duckdns.org/bot/resurrection.gif"].
Proof.
  pose proof (reboot_notice_sent sample_client sample_process "7" "100" eq_refl eq_refl)
    as H.
  cbv zeta in H. destruct H as [H _]. destruct (H eq_refl) as (Hsent & _ & _).
  rewrite Hsent; [reflexivity|]. left. reflexivity.
Defined.

Lemma blank_phrase_is_stored_witness :
  In (mkEntry "bob" "" "nothing")
     (dictData (snd (Dict.handleDefineCommand Collation.localeCompare
                       (mkInteraction ["  "; "nothing"] "bob")
                       (mkWorld fruit_store [])))).
Proof.
  exact (proj1 (blank_phrase_is_stored Collation.localeCompare "  " "nothing" [] "bob"
                  (mkWorld fruit_store []) " " [] "eve" eq_refl eq_refl eq_refl)).
Defined.
